(** * Gitea reconciliation task: a shallow embedding of [src/tasks/gitea/gitea.ts]

    The task creates an organisation, its teams, its repositories and a
    webhook in a Gitea backend.  Every backend call goes through [doApiCall],
    which records failures in a shared error log instead of raising.

    The embedding is a state-and-exception monad [Async]: a value of
    [Async A] is an [async] function body, run against a [World] that answers
    the external calls.  The run state [Run] carries the module-level
    [errors] array, the chronological list of external calls issued so far,
    and the console output. *)

From Stdlib Require Import ZArith.
From stdpp Require Import base option list strings gmap.

Local Open Scope Z_scope.

(** ** Strings, as JavaScript uses them in this file *)

(** [s.startsWith(p)] *)
Fixpoint startsWith (s p : string) {struct p} : bool :=
  match p, s with
  | EmptyString, _ => true
  | String c p', String d s' => if Ascii.eqb c d then startsWith s' p' else false
  | String _ _, EmptyString => false
  end.

(** [s.includes(sub)]: [sub] starts at some position of [s]. *)
Fixpoint includes (s sub : string) : bool :=
  startsWith s sub ||
  match s with
  | EmptyString => false
  | String _ s' => includes s' sub
  end.

(** [s.endsWith('/') ? s.slice(0, -1) : s] (lines 161-164). *)
Fixpoint stripTrailingSlash (s : string) : string :=
  match s with
  | EmptyString => EmptyString
  | String c EmptyString => if Ascii.eqb c (Ascii.ascii_of_nat 47) then EmptyString else s
  | String c s' => String c (stripTrailingSlash s')
  end.

(** The double quote of the action descriptions. *)
Definition dq : string := String (Ascii.ascii_of_nat 34) EmptyString.

(** A template literal prints an undefined value as [undefined]. *)
Definition interp (o : option string) : string := default "undefined" o.

(** JavaScript truthiness of an optional string: [undefined] and the empty
    string are falsy. *)
Definition truthy (o : option string) : bool :=
  match o with
  | None | Some EmptyString => false
  | Some (String _ _) => true
  end.

(** ** Data of the Gitea client (fields the task reads or writes)

    Optional fields of the client's classes are [option]s: [None] is
    [undefined]. *)

Module CreateTeamOption.
Inductive PermissionEnum := Read | Write | Admin.
Record t := mk {
  canCreateOrgRepo : option bool;
  name : option string;
  includesAllRepositories : option bool;
  permission : option PermissionEnum;
  units : option (list string)
}.
(** [new CreateTeamOption()]: every field undefined. *)
Definition new : t := mk None None None None None.
End CreateTeamOption.

Module Team.
Record t := mk { id : option Z; name : option string }.
End Team.

Module Repository.
Record t := mk { name : option string }.
End Repository.

(** [CreateRepoOption | EditRepoOption]: the task only ever builds the three
    fields below, and passes the same object to create and edit. *)
Module RepoOption.
Record t := mk {
  autoInit : option bool;
  name : option string;
  _private : option bool
}.
Definition new : t := mk None None None.
End RepoOption.

Module CreateOrgOption.
Record t := mk { username : option string; repoAdminChangeTeamAccess : option bool }.
Definition new : t := mk None None.
End CreateOrgOption.

(** A hook as the backend lists it: [config] is a string-keyed dictionary. *)
Module Hook.
Record t := mk { id : option Z; config : option (gmap string string) }.
End Hook.

Module CreateHookOption.
Inductive TypeEnum := Dingtalk | Discord | Gitea | Gogs | Msteams | Slack | Telegram.
Record Config := mkConfig {
  url : option string;
  http_method : string;
  content_type : string
}.
Record t := mk { type : TypeEnum; config : Config; events : list string }.
End CreateHookOption.

(** The Kubernetes service object read by [addHook]. *)
Module V1Service.
Record Spec := mkSpec { clusterIP : option string }.
Record t := mk { spec : option Spec }.
End V1Service.

(** ** The validated environment *)

Record SelfService := { apps : option (list string) }.
Record TeamSettings := { selfService : option SelfService }.
Record ArgoCd := { enabled : option bool }.
Record Apps := { argocd : option ArgoCd }.
Record Otomi := { isMultitenantFlag : option bool }.

(** [teamConfig] is a JavaScript object used as a dictionary; it is kept as
    the list of its entries in [Object.keys] order, because the fan-outs
    iterate in that order. *)
Record OtomiValues := {
  teamConfig : option (list (string * TeamSettings));
  otomi : option Otomi;
  valuesApps : option Apps
}.

Record Env := {
  GITEA_PASSWORD : string;
  GITEA_URL : string;
  OTOMI_VALUES : OtomiValues
}.

(** Constants of [src/tasks/common], which is not part of the sources. *)
Record Common := {
  orgName : string;
  otomiValuesRepoName : string;
  teamNameViewer : string;
  username : string
}.

(** ** External calls, their answers, and the run state *)

(** What a rejected backend promise carries. *)
Record ApiError := { statusCode : Z; detail : string }.

(** What an [async] function can reject with. *)
Inductive Exn :=
| HttpError (e : ApiError)
| TypeError (what : string).

(** The operations of [OrganizationApi] and [RepositoryApi] the task calls. *)
Inductive ApiOp :=
| orgCreate (body : CreateOrgOption.t)
| orgListTeams (org : string)
| orgEditTeam (id : option Z) (body : CreateTeamOption.t)
| orgCreateTeam (org : string) (body : CreateTeamOption.t)
| orgListRepos (org : string)
| createOrgRepo (org : string) (body : RepoOption.t)
| repoEdit (owner : string) (repo : option string) (body : RepoOption.t)
| repoAddTeam (owner : string) (repo : option string) (team : string)
| repoListHooks (owner repo : string)
| repoCreateHook (owner repo : string) (body : CreateHookOption.t).

(** The body a successful operation answers with. *)
Definition body_of (op : ApiOp) : Type :=
  match op with
  | orgListTeams _ => list Team.t
  | orgListRepos _ => list Repository.t
  | repoListHooks _ _ => list Hook.t
  | _ => unit
  end.

(** One external call.  [ApiCall] is a backend operation started by
    [doApiCall], with its action description and tolerated status. *)
Inductive Event :=
| ApiCall (action : string) (op : ApiOp) (tolerated : option Z)
| K8sRead (name namespace : string)
| WaitAvailable (url : string).

(** The collaborators: each answer may depend on everything called before. *)
Record World := {
  api : list Event -> forall op : ApiOp, ApiError + body_of op;
  k8sReadNamespacedService : list Event -> string -> string -> ApiError + V1Service.t;
  available : list Event -> string -> ApiError + unit
}.

Inductive Console :=
| debug (msg : string)
| logService (svc : V1Service.t)
| info (msg : string)
| errorErrorsFound (errs : list string).

Record Run := {
  errors : list string;
  calls : list Event;
  console : list Console
}.

Definition emptyRun : Run := {| errors := []; calls := []; console := [] |}.

(** How an [async] body ends: its promise is fulfilled or rejected, or the
    process was terminated by [process.exit]. *)
Inductive Outcome (A : Type) :=
| Fulfilled (a : A)
| Rejected (e : Exn)
| Exited (code : Z).
Arguments Fulfilled {A} a.
Arguments Rejected {A} e.
Arguments Exited {A} code.

Definition Async (A : Type) : Type := Run -> Outcome A * Run.

#[global] Instance Async_ret : MRet Async := fun A a s => (Fulfilled a, s).

#[global] Instance Async_bind : MBind Async := fun A B f m s =>
  match m s with
  | (Fulfilled a, s') => f a s'
  | (Rejected e, s') => (Rejected e, s')
  | (Exited c, s') => (Exited c, s')
  end.

Definition throw {A} (e : Exn) : Async A := fun s => (Rejected e, s).

(** [try { body } catch { }]: a rejection of [body] is swallowed. *)
Definition tryCatch {A} (body : Async A) : Async (option A) := fun s =>
  match body s with
  | (Fulfilled a, s') => (Fulfilled (Some a), s')
  | (Rejected _, s') => (Fulfilled None, s')
  | (Exited c, s') => (Exited c, s')
  end.

Definition processExit {A} (code : Z) : Async A := fun s => (Exited code, s).

Definition record (ev : Event) (s : Run) : Run :=
  {| errors := errors s; calls := calls s ++ [ev]; console := console s |}.

Definition pushError (e : string) (s : Run) : Run :=
  {| errors := errors s ++ [e]; calls := calls s; console := console s |}.

Definition print (c : Console) : Async unit := fun s =>
  (Fulfilled tt, {| errors := errors s; calls := calls s; console := console s ++ [c] |}).

Definition readErrors : Async (list string) := fun s => (Fulfilled (errors s), s).

(** [for (x of l) acc = await f(acc, x)], stopping at the first rejection. *)
Fixpoint foldAsync {A B} (f : B -> A -> Async B) (acc : B) (l : list A) : Async B :=
  match l with
  | [] => mret acc
  | x :: rest => acc' ← f acc x; foldAsync f acc' rest
  end.

(** Branches run one after the other in list order, each to its end. *)
Definition inTurn {A} (f : A -> Async unit) (l : list A) : Async unit :=
  foldAsync (fun _ x => f x) tt l.

(** One branch of a fan-out, cut at its awaits: each stage is a stretch of
    the async function that ends with one awaited backend call and the
    handling of its answer. *)
Definition Branch : Type := list (Async unit).

(** [await branch]: the stages in order. *)
Definition runBranch (b : Branch) : Async unit :=
  foldAsync (fun _ stage => stage) tt b.

(** Every branch that has a stage left runs it, in list order. *)
Definition round (bs : list Branch) : Async unit :=
  foldAsync (fun _ b =>
               match b with
               | [] => mret tt
               | stage :: _ => stage
               end) tt bs.

Fixpoint rounds (n : nat) (bs : list Branch) : Async unit :=
  match n with
  | O => mret tt
  | S n => round bs ;; rounds n (map tail bs)
  end.

(** [await Promise.all(l.map(f))]: every branch is started, in list order,
    and runs up to its first awaited call before any answer is handled; a
    branch goes on to its next stage when its answer has come.  Answers are
    taken in the order the calls were made, so the branches advance in
    rounds: the first stage of every branch, then the second of every branch
    that has one, and so on, until no branch has a stage left.  The branches
    of this task never reject; a rejection would end the fan-out here. *)
Definition promiseAll (bs : list Branch) : Async unit :=
  rounds (max_list (map length bs)) bs.

(** The process exit status once [main()] has ended.  An unhandled rejection
    is left open: what Node.js does with it depends on its version. *)
Definition exitStatus (o : Outcome unit) : option Z :=
  match o with
  | Fulfilled _ => Some 0
  | Exited c => Some c
  | Rejected _ => None
  end.

(** ** The task *)

Section Task.

Variable common : Common.
Variable env : Env.
Variable world : World.

(** Modelled from the spec: [doApiCall] of [src/utils], which is not part of
    the sources (spec section 4.1).  It runs the operation once.  On success
    it returns the body.  On a failure whose status is the tolerated one it
    returns undefined and logs nothing.  On any other failure it appends the
    action description and the failure detail to the error log, and returns
    undefined.  It never rejects.  What it prints is not modelled. *)
Definition doApiCall (action : string) (op : ApiOp) (tolerated : option Z)
  : Async (option (body_of op)) := fun s =>
  let s' := record (ApiCall action op tolerated) s in
  match api world (calls s) op with
  | inr body => (Fulfilled (Some body), s')
  | inl e =>
      if bool_decide (tolerated = Some (statusCode e))
      then (Fulfilled None, s')
      else (Fulfilled None, pushError (action +:+ ": " +:+ detail e) s')
  end.

(** [k8s.core().readNamespacedService(name, namespace)], then [.body]. *)
Definition readNamespacedService (name namespace : string) : Async V1Service.t := fun s =>
  let s' := record (K8sRead name namespace) s in
  match k8sReadNamespacedService world (calls s) name namespace with
  | inr svc => (Fulfilled svc, s')
  | inl e => (Rejected (HttpError e), s')
  end.

(** [waitTillAvailable(url)] of [src/utils]: a failure is fatal. *)
Definition waitTillAvailable (url : string) : Async unit := fun s =>
  let s' := record (WaitAvailable url) s in
  match available world (calls s) url with
  | inr _ => (Fulfilled tt, s')
  | inl e => (Rejected (HttpError e), s')
  end.

(** Lines 23-26. *)
Definition teamConfigEntries : list (string * TeamSettings) :=
  default [] (teamConfig (OTOMI_VALUES env)).

Definition teamIds : list string := map fst teamConfigEntries.

Definition isMultitenant : bool :=
  default false (otomi (OTOMI_VALUES env) ≫= isMultitenantFlag).

Definition hasArgo : bool :=
  default false ((valuesApps (OTOMI_VALUES env) ≫= argocd) ≫= enabled).

(** [teamConfig[teamId]] *)
Definition teamSettings (teamId : string) : option TeamSettings :=
  snd <$> List.find (fun kv => String.eqb (fst kv) teamId) teamConfigEntries.

(** Lines 30-45: the three templates. *)
Definition readOnlyTeam : CreateTeamOption.t :=
  {| CreateTeamOption.canCreateOrgRepo := Some false;
     CreateTeamOption.name := Some (teamNameViewer common);
     CreateTeamOption.includesAllRepositories := Some true;
     CreateTeamOption.permission := Some CreateTeamOption.Read;
     CreateTeamOption.units := Some ["repo.code"] |}.

Definition editorTeam : CreateTeamOption.t :=
  {| CreateTeamOption.canCreateOrgRepo := CreateTeamOption.canCreateOrgRepo readOnlyTeam;
     CreateTeamOption.name := CreateTeamOption.name readOnlyTeam;
     CreateTeamOption.includesAllRepositories := Some false;
     CreateTeamOption.permission := Some CreateTeamOption.Write;
     CreateTeamOption.units := CreateTeamOption.units readOnlyTeam |}.

Definition adminTeam : CreateTeamOption.t :=
  {| CreateTeamOption.canCreateOrgRepo := CreateTeamOption.canCreateOrgRepo editorTeam;
     CreateTeamOption.name := CreateTeamOption.name editorTeam;
     CreateTeamOption.includesAllRepositories := CreateTeamOption.includesAllRepositories editorTeam;
     CreateTeamOption.permission := Some CreateTeamOption.Admin;
     CreateTeamOption.units := CreateTeamOption.units editorTeam |}.

(** [{ ...template, name }] *)
Definition withName (template : CreateTeamOption.t) (name : string) : CreateTeamOption.t :=
  {| CreateTeamOption.canCreateOrgRepo := CreateTeamOption.canCreateOrgRepo template;
     CreateTeamOption.name := Some name;
     CreateTeamOption.includesAllRepositories := CreateTeamOption.includesAllRepositories template;
     CreateTeamOption.permission := CreateTeamOption.permission template;
     CreateTeamOption.units := CreateTeamOption.units template |}.

Definition teamAction (teamOption : CreateTeamOption.t) : string :=
  "Updating team " +:+ dq +:+ interp (CreateTeamOption.name teamOption) +:+ dq +:+
  " in org " +:+ dq +:+ orgName common +:+ dq.

(** Lines 47-66.  [existingTeams] defaults to the empty array when the caller
    passes undefined; both branches use the same action description. *)
Definition upsertTeam (existingTeams : option (list Team.t))
    (teamOption : CreateTeamOption.t) : Async unit :=
  let existingTeams := default [] existingTeams in
  let existingTeam :=
    List.find (fun el => bool_decide (Team.name el = CreateTeamOption.name teamOption))
      existingTeams in
  match existingTeam with
  | Some existingTeam =>
      doApiCall (teamAction teamOption)
        (orgEditTeam (Team.id existingTeam) teamOption) (Some 422) ;; mret tt
  | None =>
      doApiCall (teamAction teamOption)
        (orgCreateTeam (orgName common) teamOption) (Some 422) ;; mret tt
  end.

(** The callback of the [forEach] at lines 77-82, with the captured
    [tektonHook] threaded through.  Reading [url] off a config that has none
    gives undefined, and [.includes] on undefined throws. *)
Definition hookCallback (tektonHook : bool) (hook : Hook.t) : Async bool :=
  match Hook.config hook with
  | None => mret tektonHook
  | Some config =>
      match config !! "url" with
      | None => throw (TypeError "Cannot read properties of undefined (reading 'includes')")
      | Some url =>
          if includes url "el-tekton-listener"
          then print (debug "Tekton Hook already exists") ;; mret true
          else mret tektonHook
      end
  end.

(** Lines 75-83: the scan of the listed hooks. *)
Definition scanHooks (hooks : option (list Hook.t)) : Async bool :=
  match hooks with
  | Some hooks => foldAsync hookCallback false hooks
  | None => mret false
  end.

(** Lines 68-86. *)
Definition hasTektonHook : Async bool :=
  hooks ← doApiCall ("Getting hooks in repo " +:+ dq +:+ "otomi/values" +:+ dq)
            (repoListHooks (orgName common) "values") (Some 400);
  tektonHook ← scanHooks hooks;
  (if negb tektonHook then print (debug "Tekton Hook needs to be created") else mret tt) ;;
  mret tektonHook.

Definition repoCreateAction (repoOption : RepoOption.t) : string :=
  "Creating repo " +:+ dq +:+ interp (RepoOption.name repoOption) +:+ dq +:+
  " in org " +:+ dq +:+ orgName common +:+ dq.

Definition repoUpdateAction (repoOption : RepoOption.t) : string :=
  "Updating repo " +:+ dq +:+ interp (RepoOption.name repoOption) +:+ dq +:+
  " in org " +:+ dq +:+ orgName common +:+ dq.

Definition repoAddTeamAction (repoOption : RepoOption.t) (teamName : string) : string :=
  "Adding repo " +:+ dq +:+ interp (RepoOption.name repoOption) +:+ dq +:+
  " to team " +:+ dq +:+ teamName +:+ dq.

(** Lines 88-123.  [if (teamName)] is a truthiness test: undefined and the
    empty string both skip the binding. *)
Definition upsertRepo (existingTeams : option (list Team.t))
    (existingRepos : option (list Repository.t))
    (repoOption : RepoOption.t) (teamName : option string) : Async unit :=
  let existingRepos := default [] existingRepos in
  let existingRepo :=
    List.find (fun el => bool_decide (Repository.name el = RepoOption.name repoOption))
      existingRepos in
  match existingRepo with
  | None =>
      doApiCall (repoCreateAction repoOption)
        (createOrgRepo (orgName common) repoOption) (Some 422) ;; mret tt
  | Some _ =>
      doApiCall (repoUpdateAction repoOption)
        (repoEdit (orgName common) (RepoOption.name repoOption) repoOption) (Some 422) ;;
      mret tt
  end ;;
  match teamName with
  | None | Some EmptyString => mret tt
  | Some (String _ _ as teamName) =>
      doApiCall (repoAddTeamAction repoOption teamName)
        (repoAddTeam (orgName common) (RepoOption.name repoOption) teamName) (Some 422) ;;
      mret tt
  end.

(** Lines 96-113 of [upsertRepo]: the lookup and the awaited create or edit
    call. *)
Definition upsertRepo_save (existingRepos : option (list Repository.t))
    (repoOption : RepoOption.t) : Async unit :=
  let existingRepos := default [] existingRepos in
  let existingRepo :=
    List.find (fun el => bool_decide (Repository.name el = RepoOption.name repoOption))
      existingRepos in
  match existingRepo with
  | None =>
      doApiCall (repoCreateAction repoOption)
        (createOrgRepo (orgName common) repoOption) (Some 422) ;; mret tt
  | Some _ =>
      doApiCall (repoUpdateAction repoOption)
        (repoEdit (orgName common) (RepoOption.name repoOption) repoOption) (Some 422) ;;
      mret tt
  end.

(** Lines 116-121 of [upsertRepo]: the awaited binding call. *)
Definition upsertRepo_bind (repoOption : RepoOption.t) (teamName : string) : Async unit :=
  doApiCall (repoAddTeamAction repoOption teamName)
    (repoAddTeam (orgName common) (RepoOption.name repoOption) teamName) (Some 422) ;;
  mret tt.

(** [upsertRepo] cut at its awaits, as a branch of a fan-out: the create or
    edit call, then the binding call when the team name is truthy. *)
Definition upsertRepo_stages (existingTeams : option (list Team.t))
    (existingRepos : option (list Repository.t))
    (repoOption : RepoOption.t) (teamName : option string) : Branch :=
  upsertRepo_save existingRepos repoOption ::
  match teamName with
  | None | Some EmptyString => []
  | Some (String _ _ as teamName) => [upsertRepo_bind repoOption teamName]
  end.

Definition defaultTektonUrl : string :=
  "http://el-tekton-listener.team-admin.svc.cluster.local:8080".

(** Lines 125-135 of [addHook]: the lookup inside [try], which leaves
    [tektonUrl] at its default when the lookup rejects or the service has no
    [spec]. *)
Definition addHook_resolve : Async (option string) :=
  print (debug "Check for Tekton hook") ;;
  resolved ← tryCatch (
    service ← readNamespacedService "event-listener" "team-admin";
    match V1Service.spec service with
    | None => throw (TypeError "Cannot read properties of undefined (reading 'clusterIP')")
    | Some spec => print (logService service) ;; mret (V1Service.clusterIP spec)
    end);
  match resolved with
  | Some tektonUrl => mret tektonUrl
  | None => print (debug "Tekton service cannot be found") ;; mret (Some defaultTektonUrl)
  end.

(** Lines 136-137 of [addHook]: the second lookup, outside any [try]. *)
Definition addHook_reread : Async unit :=
  service ← readNamespacedService "event-listener" "team-admin";
  print (logService service).

Definition tektonHookOption (tektonUrl : option string) : CreateHookOption.t :=
  {| CreateHookOption.type := CreateHookOption.Gitea;
     CreateHookOption.config :=
       {| CreateHookOption.url := tektonUrl;
          CreateHookOption.http_method := "post";
          CreateHookOption.content_type := "json" |};
     CreateHookOption.events := ["push"] |}.

(** Lines 138-155 of [addHook]. *)
Definition addHook_install (tektonUrl : option string) : Async unit :=
  hasHooks ← hasTektonHook;
  if negb hasHooks
  then
    doApiCall ("Adding hook " +:+ dq +:+ "tekton" +:+ dq +:+ " to repo otomi/values")
      (repoCreateHook (orgName common) "values" (tektonHookOption tektonUrl)) (Some 304) ;;
    mret tt
  else mret tt.

(** Lines 124-156. *)
Definition addHook : Async unit :=
  tektonUrl ← addHook_resolve;
  addHook_reread ;;
  addHook_install tektonUrl.

(** Lines 161-168: both API clients are built on this base path. *)
Definition giteaUrl : string := stripTrailingSlash (GITEA_URL env).
Definition apiBasePath : string := giteaUrl +:+ "/api/v1".

Definition orgOption : CreateOrgOption.t :=
  {| CreateOrgOption.username := Some (orgName common);
     CreateOrgOption.repoAdminChangeTeamAccess := Some true |}.

(** Lines 177-183: the team option of one tenant. *)
Definition tenantTeam (teamId : string) : CreateTeamOption.t :=
  let name := "team-" +:+ teamId in
  if bool_decide ("gitea" ∈ default [] ((teamSettings teamId ≫= selfService) ≫= apps))
  then withName adminTeam name
  else withName editorTeam name.

(** Lines 188-193. *)
Definition repoOption : RepoOption.t :=
  {| RepoOption.autoInit := Some false;
     RepoOption.name := Some (otomiValuesRepoName common);
     RepoOption._private := Some true |}.

(** Lines 217-218. *)
Definition argoRepoOption (teamId : string) : RepoOption.t :=
  {| RepoOption.autoInit := Some true;
     RepoOption.name := Some ("team-" +:+ teamId +:+ "-argocd");
     RepoOption._private := RepoOption._private repoOption |}.

(** Lines 228-233. *)
Definition reportErrors : Async unit :=
  errs ← readErrors;
  match errs with
  | [] => print (info "Success!")
  | _ :: _ => print (errorErrorsFound errs) ;; processExit 1
  end.

(** Lines 176-184: the team fan-out; a branch awaits one call. *)
Definition upsertTenantTeams (existingTeams : option (list Team.t)) : Async unit :=
  promiseAll (map (fun teamId => [upsertTeam existingTeams (tenantTeam teamId)]) teamIds).

(** Lines 215-227: the fan-out of the per-tenant repositories; a branch is
    [upsertRepo], cut at its awaits. *)
Definition upsertArgoRepos (existingTeams : option (list Team.t))
    (existingRepos : option (list Repository.t)) : Async unit :=
  promiseAll (map (fun teamId =>
                     upsertRepo_stages existingTeams existingRepos (argoRepoOption teamId)
                       (Some ("team-" +:+ teamId))) teamIds).

(** Lines 158-234. *)
Definition main : Async unit :=
  waitTillAvailable (GITEA_URL env) ;;
  doApiCall ("Creating org " +:+ dq +:+ orgName common +:+ dq)
    (orgCreate orgOption) (Some 422) ;;
  existingTeams ← doApiCall ("Getting all teams in org " +:+ dq +:+ orgName common +:+ dq)
                    (orgListTeams (orgName common)) None;
  upsertTenantTeams existingTeams ;;
  upsertTeam existingTeams readOnlyTeam ;;
  existingRepos ← doApiCall ("Getting all repos in org " +:+ dq +:+ orgName common +:+ dq)
                    (orgListRepos (orgName common)) None;
  upsertRepo existingTeams existingRepos repoOption None ;;
  doApiCall "Adding repo values to team otomi-viewer"
    (repoAddTeam (orgName common) (Some "values") "otomi-viewer") (Some 422) ;;
  addHook ;;
  if negb hasArgo then mret tt
  else
    upsertArgoRepos existingTeams existingRepos ;;
    reportErrors.

End Task.

(** ** Vocabulary of the properties *)

(** Modelled from the spec: the order of the permission tiers, Read below
    Write below Admin (spec section 3).  The client's enum is a set of string
    constants and carries no order of its own. *)
Definition tier (p : CreateTeamOption.PermissionEnum) : nat :=
  match p with
  | CreateTeamOption.Read => 1
  | CreateTeamOption.Write => 2
  | CreateTeamOption.Admin => 3
  end.

Definition tierOf (t : CreateTeamOption.t) : nat :=
  from_option tier 0%nat (CreateTeamOption.permission t).

(** The calls a run added to the trace. *)
Definition newCalls (before after : Run) : list Event :=
  drop (length (calls before)) (calls after).

Definition isRepoAddTeam (ev : Event) : bool :=
  match ev with
  | ApiCall _ (repoAddTeam _ _ _) _ => true
  | _ => false
  end.

Definition isCreateHook (ev : Event) : bool :=
  match ev with
  | ApiCall _ (repoCreateHook _ _ _) _ => true
  | _ => false
  end.

Definition isErrorsFound (c : Console) : bool :=
  match c with
  | errorErrorsFound _ => true
  | _ => false
  end.

(** The tenant's self-service configuration lists the gitea app. *)
Definition listsGitea (settings : option TeamSettings) : Prop :=
  ∃ st ss l, settings = Some st ∧ selfService st = Some ss ∧ apps ss = Some l ∧ "gitea" ∈ l.

(** A hook whose configured url contains the listener path segment. *)
Definition hookMatches (h : Hook.t) : Prop :=
  ∃ config url, Hook.config h = Some config ∧ config !! "url" = Some url ∧
                includes url "el-tekton-listener" = true.

(** A hook that can be scanned: if it has a config, the config has a url. *)
Definition hookReadable (h : Hook.t) : Prop :=
  ∀ config, Hook.config h = Some config → is_Some (config !! "url").

#[global] Instance hookReadable_dec (h : Hook.t) : Decision (hookReadable h).
Proof.
  unfold hookReadable. destruct (Hook.config h) as [config|].
  - destruct (config !! "url") as [url|] eqn:Hurl.
    + left. intros ? [= <-]. by rewrite Hurl.
    + right. intros H. specialize (H config eq_refl). rewrite Hurl in H.
      by apply is_Some_None in H.
  - left. intros ? [=].
Defined.

(** The hooks the listing call of [hasTektonHook] hands to the scan when it
    is started in state [s]: none when the listing fails. *)
Definition listedHooks (common : Common) (world : World) (s : Run) : list Hook.t :=
  match api world (calls s) (repoListHooks (orgName common) "values") with
  | inr hooks => hooks
  | inl _ => []
  end.

(** The team option a team operation carries. *)
Definition teamOptionOf (op : ApiOp) : option CreateTeamOption.t :=
  match op with
  | orgEditTeam _ body | orgCreateTeam _ body => Some body
  | _ => None
  end.

(** What [doApiCall] returns for [op] when started in state [s]. *)
Definition answered (world : World) (s : Run) (op : ApiOp) : option (body_of op) :=
  match api world (calls s) op with
  | inr body => Some body
  | inl _ => None
  end.

(** The three external calls [addHook] can make, as they appear in the
    trace. *)
Definition listenerLookup : Event := K8sRead "event-listener" "team-admin".

Definition listHooksCall (common : Common) : Event :=
  ApiCall ("Getting hooks in repo " +:+ dq +:+ "otomi/values" +:+ dq)
    (repoListHooks (orgName common) "values") (Some 400).

Definition createHookCall (common : Common) (tektonUrl : option string) : Event :=
  ApiCall ("Adding hook " +:+ dq +:+ "tekton" +:+ dq +:+ " to repo otomi/values")
    (repoCreateHook (orgName common) "values"
       {| CreateHookOption.type := CreateHookOption.Gitea;
          CreateHookOption.config :=
            {| CreateHookOption.url := tektonUrl;
               CreateHookOption.http_method := "post";
               CreateHookOption.content_type := "json" |};
          CreateHookOption.events := ["push"] |})
    (Some 304).

(** The two messages of the end-of-run report (lines 228-233). *)
Definition isReport (c : Console) : bool :=
  match c with
  | info _ | errorErrorsFound _ => true
  | _ => false
  end.

(** A computation that never terminates the process and prints no report. *)
Definition silent {A} (m : Async A) : Prop :=
  ∀ s, (∀ code, fst (m s) ≠ Exited code) ∧
       ∃ printed, console (snd (m s)) = console s ++ printed ∧
                  Forall (fun c => isReport c = false) printed.

(** How a run with the end-of-run inspection ends: success is reported on an
    empty error log, and a non-empty log is dumped before exit status 1. *)
Definition inspected (o : Outcome unit) (s : Run) : Prop :=
  match o with
  | Fulfilled _ => errors s = [] ∧ last (console s) = Some (info "Success!")
  | Exited code =>
      code = 1 ∧ errors s ≠ [] ∧ last (console s) = Some (errorErrorsFound (errors s))
  | Rejected _ => True
  end.

(** The backend calls of [main] and of the upserts, as they appear in the
    trace. *)
Definition orgCreateCall (common : Common) : Event :=
  ApiCall ("Creating org " +:+ dq +:+ orgName common +:+ dq)
    (orgCreate (orgOption common)) (Some 422).

Definition listTeamsCall (common : Common) : Event :=
  ApiCall ("Getting all teams in org " +:+ dq +:+ orgName common +:+ dq)
    (orgListTeams (orgName common)) None.

Definition listReposCall (common : Common) : Event :=
  ApiCall ("Getting all repos in org " +:+ dq +:+ orgName common +:+ dq)
    (orgListRepos (orgName common)) None.

Definition bindViewerCall (common : Common) : Event :=
  ApiCall "Adding repo values to team otomi-viewer"
    (repoAddTeam (orgName common) (Some "values") "otomi-viewer") (Some 422).

Definition createTeamCall (common : Common) (teamOption : CreateTeamOption.t) : Event :=
  ApiCall (teamAction common teamOption)
    (orgCreateTeam (orgName common) teamOption) (Some 422).

Definition editTeamCall (common : Common) (id : option Z)
    (teamOption : CreateTeamOption.t) : Event :=
  ApiCall (teamAction common teamOption) (orgEditTeam id teamOption) (Some 422).

Definition createRepoCall (common : Common) (repoOption : RepoOption.t) : Event :=
  ApiCall (repoCreateAction common repoOption)
    (createOrgRepo (orgName common) repoOption) (Some 422).

Definition editRepoCall (common : Common) (repoOption : RepoOption.t) : Event :=
  ApiCall (repoUpdateAction common repoOption)
    (repoEdit (orgName common) (RepoOption.name repoOption) repoOption) (Some 422).

Definition bindTeamCall (common : Common) (repoOption : RepoOption.t)
    (teamName : string) : Event :=
  ApiCall (repoAddTeamAction repoOption teamName)
    (repoAddTeam (orgName common) (RepoOption.name repoOption) teamName) (Some 422).

(** What [main] does after [addHook] (lines 212-233). *)
Definition afterHook (common : Common) (env : Env) (world : World)
    (existingTeams : option (list Team.t))
    (existingRepos : option (list Repository.t)) : Async unit :=
  if negb (hasArgo env) then mret tt
  else upsertArgoRepos common env world existingTeams existingRepos ;; reportErrors.

(** ** Concrete collaborators, used to run the task *)

Definition demoCommon : Common :=
  {| orgName := "otomi"; otomiValuesRepoName := "values";
     teamNameViewer := "otomi-viewer"; username := "otomi-admin" |}.

(** A backend that accepts everything and lists the given entities. *)
Definition answerWith (teams : list Team.t) (repos : list Repository.t)
    (hooks : list Hook.t) (op : ApiOp) : ApiError + body_of op :=
  match op return ApiError + body_of op with
  | orgListTeams _ => inr teams
  | orgListRepos _ => inr repos
  | repoListHooks _ _ => inr hooks
  | _ => inr tt
  end.

Definition clusterService : V1Service.t :=
  {| V1Service.spec := Some {| V1Service.clusterIP := Some "10.0.0.7" |} |}.

Definition notFound : ApiError := {| statusCode := 404; detail := "service not found" |}.

Definition calmWorld (teams : list Team.t) (hooks : list Hook.t) : World :=
  {| api := fun _ op => answerWith teams [] hooks op;
     k8sReadNamespacedService := fun _ _ _ => inr clusterService;
     available := fun _ _ => inr tt |}.

(** The listener service does not exist: every lookup is rejected. *)
Definition noServiceWorld : World :=
  {| api := fun _ op => answerWith [] [] [] op;
     k8sReadNamespacedService := fun _ _ _ => inl notFound;
     available := fun _ _ => inr tt |}.

(** The first lookup is rejected, later ones succeed. *)
Definition flakyServiceWorld : World :=
  {| api := fun _ op => answerWith [] [] [] op;
     k8sReadNamespacedService := fun history _ _ =>
       match history with
       | [] => inl notFound
       | _ :: _ => inr clusterService
       end;
     available := fun _ _ => inr tt |}.

(** The backend rejects the creation of the organisation with status 500. *)
Definition orgFailWorld : World :=
  {| api := fun _ op =>
       match op return ApiError + body_of op with
       | orgCreate _ => inl {| statusCode := 500; detail := "internal error" |}
       | op => answerWith [] [] [] op
       end;
     k8sReadNamespacedService := fun _ _ _ => inr clusterService;
     available := fun _ _ => inr tt |}.

Definition demoEnv (tenants : list (string * TeamSettings)) (argo : bool) : Env :=
  {| GITEA_PASSWORD := "secret";
     GITEA_URL := "http://gitea.local/";
     OTOMI_VALUES :=
       {| teamConfig := Some tenants;
          otomi := None;
          valuesApps := Some {| argocd := Some {| enabled := Some argo |} |} |} |}.

Definition twoTenants : list (string * TeamSettings) :=
  [("a", {| selfService := Some {| apps := Some ["gitea"] |} |});
   ("b", {| selfService := None |})].

Definition listenerHook : Hook.t :=
  {| Hook.id := Some 1;
     Hook.config := Some {[ "url" := "http://10.0.0.7/el-tekton-listener" ]} |}.

(** A hook with a config that has no url. *)
Definition bareHook : Hook.t := {| Hook.id := Some 2; Hook.config := Some ∅ |}.

Definition teamA : Team.t := {| Team.id := Some 7; Team.name := Some "team-a" |}.

Definition teamB : Team.t := {| Team.id := Some 8; Team.name := Some "team-b" |}.

Definition unavailable : ApiError := {| statusCode := 503; detail := "gitea is not up" |}.

(** The backend never becomes available. *)
Definition downWorld : World :=
  {| api := fun _ op => answerWith [] [] [] op;
     k8sReadNamespacedService := fun _ _ _ => inr clusterService;
     available := fun _ _ => inl unavailable |}.

(** The listing of the hooks is rejected with status 500. *)
Definition hookListFailWorld : World :=
  {| api := fun _ op =>
       match op return ApiError + body_of op with
       | repoListHooks _ _ => inl {| statusCode := 500; detail := "internal error" |}
       | op => answerWith [] [] [] op
       end;
     k8sReadNamespacedService := fun _ _ _ => inr clusterService;
     available := fun _ _ => inr tt |}.

(** The test of line 78 on one hook, for a hook that can be scanned. *)
Definition hookMatchesb (h : Hook.t) : bool :=
  match Hook.config h with
  | Some config =>
      match config !! "url" with
      | Some url => includes url "el-tekton-listener"
      | None => false
      end
  | None => false
  end.

(** A created hook as a backend that stores it lists it back: the config
    holds the url and the content type it was created with. *)
Definition hookOfOption (body : CreateHookOption.t) : Hook.t :=
  {| Hook.id := None;
     Hook.config :=
       Some (match CreateHookOption.url (CreateHookOption.config body) with
             | Some url =>
                 <["url" := url]>
                   {[ "content_type" :=
                        CreateHookOption.content_type (CreateHookOption.config body) ]}
             | None =>
                 {[ "content_type" :=
                      CreateHookOption.content_type (CreateHookOption.config body) ]}
             end) |}.

Definition createdHooks (history : list Event) : list Hook.t :=
  omap (fun ev =>
          match ev with
          | ApiCall _ (repoCreateHook _ _ body) _ => Some (hookOfOption body)
          | _ => None
          end) history.

(** A backend that accepts every call and lists the hooks created so far;
    the listener service is found at [address]. *)
Definition rememberingWorld (address : string) : World :=
  {| api := fun history op =>
       match op return ApiError + body_of op with
       | repoListHooks _ _ => inr (createdHooks history)
       | op => answerWith [] [] [] op
       end;
     k8sReadNamespacedService := fun _ _ _ =>
       inr {| V1Service.spec := Some {| V1Service.clusterIP := Some address |} |};
     available := fun _ _ => inr tt |}.

(** ** Properties *)

Section Properties.

Variable common : Common.
Variable env : Env.
Variable world : World.

(** *** The monad and the tolerant caller *)

Lemma bind_run {A B} (m : Async A) (f : A → Async B) (s : Run) :
  (m ≫= f) s =
  match m s with
  | (Fulfilled a, s') => f a s'
  | (Rejected e, s') => (Rejected e, s')
  | (Exited c, s') => (Exited c, s')
  end.
Proof. reflexivity. Qed.

(** [doApiCall] always returns, and adds exactly its own call to the trace. *)
Lemma doApiCall_run (action : string) (op : ApiOp) (tolerated : option Z) (s : Run) :
  ∃ s', doApiCall world action op tolerated s = (Fulfilled (answered world s op), s') ∧
        calls s' = calls s ++ [ApiCall action op tolerated] ∧
        console s' = console s.
Proof.
  unfold doApiCall, answered.
  destruct (api world (calls s) op) as [e|body].
  - case_bool_decide; eexists; split; try reflexivity; split; reflexivity.
  - eexists; split; try reflexivity; split; reflexivity.
Qed.

(** A call made for its effect only. *)
Lemma doApiCall_void (action : string) (op : ApiOp) (tolerated : option Z) (s : Run) :
  ∃ s', (doApiCall world action op tolerated ;; mret tt) s = (Fulfilled tt, s') ∧
        calls s' = calls s ++ [ApiCall action op tolerated] ∧
        console s' = console s.
Proof.
  destruct (doApiCall_run action op tolerated s) as (s' & Hrun & Hcalls & Hcons).
  exists s'. rewrite bind_run, Hrun. auto.
Qed.

Lemma newCalls_app (s s' : Run) (l : list Event) :
  calls s' = calls s ++ l → newCalls s s' = l.
Proof. intros H. unfold newCalls. rewrite H. apply drop_app_length. Qed.

(** [Array.prototype.find] returns the first element that passes the test. *)
Lemma find_first {A} (f : A → bool) (l : list A) (x : A) :
  List.find f l = Some x →
  ∃ before after, l = before ++ x :: after ∧ f x = true ∧ ∀ y, y ∈ before → f y = false.
Proof.
  induction l as [|a l IH]; simpl; [discriminate|].
  destruct (f a) eqn:Hfa.
  - intros [= ->]. exists [], l. split; [reflexivity|]. split; [assumption|].
    intros y Hy. inversion Hy.
  - intros Hfind. destruct (IH Hfind) as (before & after & -> & Hx & Hbefore).
    exists (a :: before), after. split; [reflexivity|]. split; [assumption|].
    intros y Hy. apply elem_of_cons in Hy as [->|Hy]; auto.
Qed.

Lemma find_absent {A} (f : A → bool) (l : list A) :
  List.find f l = None → ∀ y, y ∈ l → f y = false.
Proof.
  intros Hfind y Hy. apply list_elem_of_In in Hy.
  exact (List.find_none f l Hfind y Hy).
Qed.

(** *** Team upsert *)

(** C1: for every list of existing teams and every desired team option,
    [upsertTeam] returns after exactly one backend call, tolerating 422.
    When some existing team has exactly the desired name, the call edits the
    first such team, by its id; when none has, the call creates the team. *)
Theorem upsertTeam_one_call (existingTeams : option (list Team.t))
    (teamOption : CreateTeamOption.t) (s : Run) :
  ∃ op,
    fst (upsertTeam common world existingTeams teamOption s) = Fulfilled tt ∧
    calls (snd (upsertTeam common world existingTeams teamOption s)) =
      calls s ++ [ApiCall (teamAction common teamOption) op (Some 422)] ∧
    ((∃ t, t ∈ default [] existingTeams ∧ Team.name t = CreateTeamOption.name teamOption) →
     ∃ before t after,
       default [] existingTeams = before ++ t :: after ∧
       Team.name t = CreateTeamOption.name teamOption ∧
       (∀ u, u ∈ before → Team.name u ≠ CreateTeamOption.name teamOption) ∧
       op = orgEditTeam (Team.id t) teamOption) ∧
    ((∀ t, t ∈ default [] existingTeams → Team.name t ≠ CreateTeamOption.name teamOption) →
     op = orgCreateTeam (orgName common) teamOption).
Proof.
  unfold upsertTeam.
  destruct (List.find _ (default [] existingTeams)) as [found|] eqn:Hfind.
  - destruct (doApiCall_void (teamAction common teamOption)
                (orgEditTeam (Team.id found) teamOption) (Some 422) s)
      as (s' & Hrun & Hcalls & _).
    exists (orgEditTeam (Team.id found) teamOption). rewrite Hrun. simpl.
    split; [reflexivity|]. split; [assumption|].
    destruct (find_first _ _ _ Hfind) as (before & after & Hsplit & Hname & Hbefore).
    apply bool_decide_eq_true in Hname.
    split.
    + intros _. exists before, found, after. repeat split; try assumption.
      intros u Hu. specialize (Hbefore u Hu). by apply bool_decide_eq_false in Hbefore.
    + intros Hnone. exfalso. apply (Hnone found); [|assumption].
      rewrite Hsplit. apply elem_of_app. right. apply elem_of_cons. by left.
  - destruct (doApiCall_void (teamAction common teamOption)
                (orgCreateTeam (orgName common) teamOption) (Some 422) s)
      as (s' & Hrun & Hcalls & _).
    exists (orgCreateTeam (orgName common) teamOption). rewrite Hrun. simpl.
    split; [reflexivity|]. split; [assumption|].
    split; [|reflexivity].
    intros (t & Ht & Hname). exfalso.
    pose proof (find_absent _ _ Hfind t Ht) as Hf.
    by apply bool_decide_eq_false in Hf.
Qed.

(** The part of [upsertTeam] that other functions rely on. *)
Lemma upsertTeam_run (existingTeams : option (list Team.t))
    (teamOption : CreateTeamOption.t) (s : Run) :
  ∃ op s',
    upsertTeam common world existingTeams teamOption s = (Fulfilled tt, s') ∧
    calls s' = calls s ++ [ApiCall (teamAction common teamOption) op (Some 422)] ∧
    console s' = console s ∧
    teamOptionOf op = Some teamOption.
Proof.
  unfold upsertTeam.
  destruct (List.find _ (default [] existingTeams)) as [found|].
  - destruct (doApiCall_void (teamAction common teamOption)
                (orgEditTeam (Team.id found) teamOption) (Some 422) s)
      as (s' & Hrun & Hcalls & Hcons).
    exists (orgEditTeam (Team.id found) teamOption), s'. auto.
  - destruct (doApiCall_void (teamAction common teamOption)
                (orgCreateTeam (orgName common) teamOption) (Some 422) s)
      as (s' & Hrun & Hcalls & Hcons).
    exists (orgCreateTeam (orgName common) teamOption), s'. auto.
Qed.

(** Branches run in turn that each return: the run returns, and the trace
    grows by the branches' calls in list order. *)
Lemma promiseAll_trace {A} (f : A → Async unit) (P : A → list Event → Prop) :
  (∀ x s, ∃ s' evs, f x s = (Fulfilled tt, s') ∧ calls s' = calls s ++ evs ∧
                     console s' = console s ∧ P x evs) →
  ∀ l s, ∃ s' evss, inTurn f l s = (Fulfilled tt, s') ∧
                    calls s' = calls s ++ concat evss ∧
                    console s' = console s ∧ Forall2 P l evss.
Proof.
  intros Hf. unfold inTurn. induction l as [|x l IH]; intros s.
  - exists s, []. simpl. rewrite app_nil_r. repeat split. constructor.
  - destruct (Hf x s) as (s1 & evs & Hx & Hcalls1 & Hcons1 & HP).
    destruct (IH s1) as (s2 & evss & Hl & Hcalls2 & Hcons2 & HPs).
    exists s2, (evs :: evss). simpl. rewrite bind_run, Hx.
    split; [exact Hl|]. split.
    + rewrite Hcalls2, Hcalls1. by rewrite <- app_assoc.
    + split; [congruence|]. by constructor.
Qed.

(** *** The rounds of a fan-out *)

Lemma bind_unit_ret (m : Async unit) (s : Run) : (m ;; mret tt) s = m s.
Proof. rewrite bind_run. by destruct (m s) as [[[]|e|c] s']. Qed.

(** A round runs the first stage of every branch, in list order. *)
Lemma round_first_stages {A} (g : A → Branch) (h : A → Async unit) (l : list A) :
  (∀ x, ∃ rest, g x = h x :: rest) → ∀ s, round (map g l) s = inTurn h l s.
Proof.
  intros Hg. unfold round, inTurn. induction l as [|x l IH]; intros s; [reflexivity|].
  simpl. rewrite !bind_run. destruct (Hg x) as [rest ->].
  destruct (h x s) as [[[]|e|c] s']; [apply IH | reflexivity | reflexivity].
Qed.

Lemma max_list_lengths {A} (g : A → Branch) (k : nat) (l : list A) :
  (∀ x, length (g x) = k) → l ≠ [] → max_list (map length (map g l)) = k.
Proof.
  intros Hg. induction l as [|x l IH]; [done|]. intros _. simpl. rewrite Hg.
  destruct l as [|y l]; [simpl; lia|]. rewrite IH; [lia | done].
Qed.

(** A fan-out of branches with a single awaited call runs them in turn. *)
Lemma promiseAll_one_stage {A} (f : A → Async unit) (l : list A) (s : Run) :
  promiseAll (map (fun x => [f x]) l) s = inTurn f l s.
Proof.
  unfold promiseAll. destruct (decide (l = [])) as [->|Hl]; [reflexivity|].
  rewrite (max_list_lengths (fun x => [f x]) 1%nat) by done.
  simpl. rewrite bind_unit_ret. apply round_first_stages. by eexists.
Qed.

(** A fan-out of branches with two awaited calls makes the first call of
    every branch, then the second call of every branch. *)
Lemma promiseAll_two_stages {A} (g : A → Branch) (a b : A → Async unit)
    (l : list A) (s : Run) :
  (∀ x, g x = [a x; b x]) →
  promiseAll (map g l) s = (inTurn a l ;; inTurn b l) s.
Proof.
  intros Hg. unfold promiseAll. destruct (decide (l = [])) as [->|Hl]; [reflexivity|].
  rewrite (max_list_lengths g 2%nat); [|intros x; by rewrite Hg|done].
  simpl. rewrite !bind_run.
  rewrite (round_first_stages g a) by (intros x; rewrite Hg; by eexists).
  destruct (inTurn a l s) as [[[]|e|c] s']; try reflexivity.
  rewrite bind_unit_ret, List.map_map.
  apply (round_first_stages (fun x => tail (g x)) b).
  intros x. rewrite Hg. by eexists.
Qed.

Lemma upsertTenantTeams_in_turn (existingTeams : option (list Team.t)) (s : Run) :
  upsertTenantTeams common env world existingTeams s =
  inTurn (fun teamId => upsertTeam common world existingTeams (tenantTeam common env teamId))
    (teamIds env) s.
Proof. unfold upsertTenantTeams. apply promiseAll_one_stage. Qed.

(** Awaited alone, the stages of [upsertRepo] are [upsertRepo]. *)
Lemma upsertRepo_stages_run (existingTeams : option (list Team.t))
    (existingRepos : option (list Repository.t)) (repoOption : RepoOption.t)
    (teamName : option string) (s : Run) :
  runBranch (upsertRepo_stages common world existingTeams existingRepos repoOption teamName) s
  = upsertRepo common world existingTeams existingRepos repoOption teamName s.
Proof.
  unfold runBranch, upsertRepo_stages, upsertRepo, upsertRepo_save, upsertRepo_bind.
  cbn [foldAsync].
  set (save := match List.find _ _ with Some _ => _ | None => _ end).
  rewrite !bind_run. destruct (save s) as [[[]|e|c] s']; try reflexivity.
  destruct teamName as [[|c rest]|]; cbn [foldAsync]; try reflexivity.
  rewrite !bind_run. by destruct (doApiCall world _ _ _ s') as [[?|?|?] ?].
Qed.

(** *** Permission of a tenant team *)

Lemma listsGitea_iff (settings : option TeamSettings) :
  listsGitea settings ↔ "gitea" ∈ default [] ((settings ≫= selfService) ≫= apps).
Proof.
  unfold listsGitea. split.
  - intros (st & ss & l & -> & Hss & Hl & Hin). simpl. rewrite Hss. simpl. by rewrite Hl.
  - destruct settings as [st|]; simpl; [|by intros ?%elem_of_nil].
    destruct (selfService st) as [ss|] eqn:Hss; simpl; [|by intros ?%elem_of_nil].
    destruct (apps ss) as [l|] eqn:Hl; simpl; [|by intros ?%elem_of_nil].
    intros Hin. by exists st, ss, l.
Qed.

(** [teamConfig[teamId]] is the settings stored under the key [teamId]. *)
Lemma teamSettings_entry (teamId : string) (settings : TeamSettings) :
  NoDup (teamIds env) → (teamId, settings) ∈ teamConfigEntries env →
  teamSettings env teamId = Some settings.
Proof.
  unfold teamSettings, teamIds. induction (teamConfigEntries env) as [|[k v] l IH]; simpl.
  - by intros _ ?%elem_of_nil.
  - intros Hnodup Hin. apply NoDup_cons in Hnodup as [Hk Hnodup].
    destruct (String.eqb_spec k teamId) as [->|Hne]; simpl.
    + apply elem_of_cons in Hin as [[= ->]|Hin]; [reflexivity|].
      exfalso. apply Hk. change teamId with (fst (teamId, settings)).
      by apply list_elem_of_fmap_2.
    + apply elem_of_cons in Hin as [[= -> ->]|Hin]; [done|]. by apply IH.
Qed.

Lemma tenantTeam_spec (teamId : string) :
  CreateTeamOption.name (tenantTeam common env teamId) = Some ("team-" +:+ teamId) ∧
  (tenantTeam common env teamId = withName (adminTeam common) ("team-" +:+ teamId)
     ↔ listsGitea (teamSettings env teamId)) ∧
  (tenantTeam common env teamId = withName (editorTeam common) ("team-" +:+ teamId)
     ↔ ¬ listsGitea (teamSettings env teamId)).
Proof.
  rewrite listsGitea_iff. unfold tenantTeam. case_bool_decide as Hin.
  - split; [reflexivity|]. split; [tauto|].
    split; [discriminate | intros Hnot; by destruct Hnot].
  - split; [reflexivity|]. split; [|tauto]. split; [discriminate | done].
Qed.

(** The team fan-out, tenant by tenant, with the settings as the lookup of
    line 180 finds them. *)
Lemma upsertTenantTeams_by_lookup (existingTeams : option (list Team.t)) (s : Run) :
  fst (upsertTenantTeams common env world existingTeams s) = Fulfilled tt ∧
  ∃ evss,
    newCalls s (snd (upsertTenantTeams common env world existingTeams s)) = concat evss ∧
    Forall2
      (fun teamId evs => ∃ op body,
         evs = [ApiCall (teamAction common body) op (Some 422)] ∧
         teamOptionOf op = Some body ∧
         CreateTeamOption.name body = Some ("team-" +:+ teamId) ∧
         (body = withName (adminTeam common) ("team-" +:+ teamId)
            ↔ listsGitea (teamSettings env teamId)) ∧
         (body = withName (editorTeam common) ("team-" +:+ teamId)
            ↔ ¬ listsGitea (teamSettings env teamId)) ∧
         (CreateTeamOption.permission body = Some CreateTeamOption.Admin
            ↔ listsGitea (teamSettings env teamId)) ∧
         (CreateTeamOption.permission body = Some CreateTeamOption.Write
            ↔ ¬ listsGitea (teamSettings env teamId)))
      (teamIds env) evss.
Proof.
  rewrite upsertTenantTeams_in_turn.
  edestruct (promiseAll_trace
    (fun teamId => upsertTeam common world existingTeams (tenantTeam common env teamId)))
    as (s' & evss & Hrun & Hcalls & _ & Hall).
  2: { rewrite Hrun. simpl. split; [reflexivity|]. exists evss.
       split; [by apply newCalls_app | exact Hall]. }
  intros teamId s0. simpl.
  destruct (upsertTeam_run existingTeams (tenantTeam common env teamId) s0)
    as (op & s1 & Hrun & Hcalls & Hcons & Hop).
  exists s1, [ApiCall (teamAction common (tenantTeam common env teamId)) op (Some 422)].
  repeat split; try assumption.
  exists op, (tenantTeam common env teamId).
  destruct (tenantTeam_spec teamId) as (Hname & Hadmin & Heditor).
  repeat split; try assumption; try tauto.
  - intros Hperm. apply Hadmin. clear Hadmin Heditor. revert Hperm.
    unfold tenantTeam. by case_bool_decide.
  - intros Hlists. apply Hadmin in Hlists. by rewrite Hlists.
  - intros Hperm. apply Heditor. clear Hadmin Heditor. revert Hperm.
    unfold tenantTeam. by case_bool_decide.
  - intros Hlists. apply Heditor in Hlists. by rewrite Hlists.
Qed.

Lemma Forall2_map_fst_in {A B C} (P : A → C → Prop) (R : A * B → C → Prop)
    (l : list (A * B)) (k : list C) :
  (∀ e y, e ∈ l → P (fst e) y → R e y) → Forall2 P (map fst l) k → Forall2 R l k.
Proof.
  revert k. induction l as [|e l IH]; intros k Himpl Hall; simpl in Hall.
  - inversion Hall. constructor.
  - inversion Hall as [|? y ? k' Hy Hrest]; subst. constructor.
    + apply Himpl; [apply list_elem_of_here | assumption].
    + apply IH; [|assumption]. intros e' y' Hin. apply Himpl. by apply list_elem_of_further.
Qed.

(** C2: the tenants are the entries of [teamConfig] (none when it is absent),
    and a JavaScript object holds each key once.  In the team fan-out of
    [main], entry by entry and in that order, the option passed to
    [upsertTeam] for the tenant of an entry is the Admin template exactly
    when the self-service apps of that entry's settings list gitea, and the
    editor (Write) template exactly when they do not; either way its name is
    team-<tenantId>. *)
Theorem tenant_team_option (existingTeams : option (list Team.t)) (s : Run) :
  NoDup (map fst (default [] (teamConfig (OTOMI_VALUES env)))) →
  fst (upsertTenantTeams common env world existingTeams s) = Fulfilled tt ∧
  ∃ parts,
    newCalls s (snd (upsertTenantTeams common env world existingTeams s)) = concat parts ∧
    Forall2
      (fun entry part => ∃ op body,
         part = [ApiCall (teamAction common body) op (Some 422)] ∧
         teamOptionOf op = Some body ∧
         CreateTeamOption.name body = Some ("team-" +:+ fst entry) ∧
         (body = withName (adminTeam common) ("team-" +:+ fst entry)
            ↔ ∃ ss l, selfService (snd entry) = Some ss ∧ apps ss = Some l ∧ "gitea" ∈ l) ∧
         (body = withName (editorTeam common) ("team-" +:+ fst entry)
            ↔ ¬ ∃ ss l, selfService (snd entry) = Some ss ∧ apps ss = Some l ∧ "gitea" ∈ l) ∧
         (CreateTeamOption.permission body = Some CreateTeamOption.Admin
            ↔ ∃ ss l, selfService (snd entry) = Some ss ∧ apps ss = Some l ∧ "gitea" ∈ l) ∧
         (CreateTeamOption.permission body = Some CreateTeamOption.Write
            ↔ ¬ ∃ ss l, selfService (snd entry) = Some ss ∧ apps ss = Some l ∧ "gitea" ∈ l))
      (default [] (teamConfig (OTOMI_VALUES env))) parts.
Proof.
  intros Hkeys.
  destruct (upsertTenantTeams_by_lookup existingTeams s) as (Hok & parts & Hcalls & Hall).
  split; [exact Hok|]. exists parts. split; [exact Hcalls|].
  refine (Forall2_map_fst_in _ _ _ _ _ Hall).
  intros [teamId settings] part Hin (op & body & Hpart & Hop & Hname & Ha & He & Hpa & Hpe).
  simpl in *.
  assert (listsGitea (teamSettings env teamId)
          ↔ ∃ ss l, selfService settings = Some ss ∧ apps ss = Some l ∧ "gitea" ∈ l)
    as Hlists.
  { rewrite (teamSettings_entry teamId settings Hkeys Hin). unfold listsGitea. split.
    - intros (st & ss & l & [= <-] & Hss & Hl & Hgitea). by exists ss, l.
    - intros (ss & l & Hss & Hl & Hgitea). by exists settings, ss, l. }
  exists op, body. do 3 (split; [assumption|]). tauto.
Qed.

(** *** The three templates *)

(** C7: the viewer team is Read with every repository included; the editor
    and admin templates, and so every tenant team, do not include every
    repository; and the permissions of the three templates rise strictly,
    Read below Write below Admin. *)
Theorem team_templates_invariant :
  CreateTeamOption.permission (readOnlyTeam common) = Some CreateTeamOption.Read ∧
  CreateTeamOption.includesAllRepositories (readOnlyTeam common) = Some true ∧
  CreateTeamOption.includesAllRepositories (editorTeam common) = Some false ∧
  CreateTeamOption.includesAllRepositories (adminTeam common) = Some false ∧
  (∀ teamId,
     CreateTeamOption.includesAllRepositories (tenantTeam common env teamId) = Some false) ∧
  CreateTeamOption.permission (editorTeam common) = Some CreateTeamOption.Write ∧
  CreateTeamOption.permission (adminTeam common) = Some CreateTeamOption.Admin ∧
  (tierOf (readOnlyTeam common) < tierOf (editorTeam common) < tierOf (adminTeam common))%nat.
Proof.
  repeat split; try reflexivity.
  - intros teamId. unfold tenantTeam. by case_bool_decide.
  - unfold tierOf. simpl. lia.
  - unfold tierOf. simpl. lia.
Qed.

(** *** Repository upsert *)

(** C3, amended: [upsertRepo] returns after one create-or-edit call, which
    tolerates 422 (edit when a listed repository has the desired name,
    create otherwise), followed by the team binding, which tolerates 422,
    exactly when the team name is a non-empty string; an omitted or empty
    team name adds no binding call. *)
Theorem upsertRepo_binds_iff_named (existingTeams : option (list Team.t))
    (existingRepos : option (list Repository.t)) (repoOption : RepoOption.t)
    (teamName : option string) (s : Run) :
  ∃ first bind,
    fst (upsertRepo common world existingTeams existingRepos repoOption teamName s)
      = Fulfilled tt ∧
    calls (snd (upsertRepo common world existingTeams existingRepos repoOption teamName s))
      = calls s ++ first :: bind ∧
    ((∃ r, r ∈ default [] existingRepos ∧ Repository.name r = RepoOption.name repoOption) →
     first = ApiCall (repoUpdateAction common repoOption)
               (repoEdit (orgName common) (RepoOption.name repoOption) repoOption)
               (Some 422)) ∧
    ((∀ r, r ∈ default [] existingRepos → Repository.name r ≠ RepoOption.name repoOption) →
     first = ApiCall (repoCreateAction common repoOption)
               (createOrgRepo (orgName common) repoOption) (Some 422)) ∧
    isRepoAddTeam first = false ∧
    (∀ t, teamName = Some t → t ≠ EmptyString →
       bind = [ApiCall (repoAddTeamAction repoOption t)
                 (repoAddTeam (orgName common) (RepoOption.name repoOption) t)
                 (Some 422)]) ∧
    (teamName = None ∨ teamName = Some EmptyString → bind = []) ∧
    existsb isRepoAddTeam (first :: bind) = truthy teamName.
Proof.
  unfold upsertRepo. rewrite bind_run.
  set (present := List.find _ (default [] existingRepos)).
  assert (∃ first s1,
    match present with
    | Some _ =>
        doApiCall world (repoUpdateAction common repoOption)
          (repoEdit (orgName common) (RepoOption.name repoOption) repoOption) (Some 422) ;;
        mret tt
    | None =>
        doApiCall world (repoCreateAction common repoOption)
          (createOrgRepo (orgName common) repoOption) (Some 422) ;; mret tt
    end s = (Fulfilled tt, s1) ∧ calls s1 = calls s ++ [first] ∧
    isRepoAddTeam first = false ∧
    ((∃ r, r ∈ default [] existingRepos ∧ Repository.name r = RepoOption.name repoOption) →
     first = ApiCall (repoUpdateAction common repoOption)
               (repoEdit (orgName common) (RepoOption.name repoOption) repoOption)
               (Some 422)) ∧
    ((∀ r, r ∈ default [] existingRepos → Repository.name r ≠ RepoOption.name repoOption) →
     first = ApiCall (repoCreateAction common repoOption)
               (createOrgRepo (orgName common) repoOption) (Some 422)))
    as (first & s1 & Hfirst & Hcalls1 & Hkind & Hedit & Hcreate).
  { subst present.
    destruct (List.find _ (default [] existingRepos)) as [found|] eqn:Hfind.
    - edestruct doApiCall_void as (s1 & Hrun & Hcalls & _).
      eexists _, s1. split; [exact Hrun|]. split; [exact Hcalls|].
      split; [reflexivity|]. split; [reflexivity|].
      intros Hnone. exfalso.
      destruct (find_first _ _ _ Hfind) as (before & after & Hsplit & Hname & _).
      apply bool_decide_eq_true in Hname. apply (Hnone found); [|assumption].
      rewrite Hsplit. apply elem_of_app. right. apply elem_of_cons. by left.
    - edestruct doApiCall_void as (s1 & Hrun & Hcalls & _).
      eexists _, s1. split; [exact Hrun|]. split; [exact Hcalls|].
      split; [reflexivity|]. split; [|reflexivity].
      intros (r & Hr & Hname). exfalso.
      pose proof (find_absent _ _ Hfind r Hr) as Hf.
      by apply bool_decide_eq_false in Hf. }
  rewrite Hfirst.
  destruct teamName as [[|c rest]|].
  - exists first, []. simpl. rewrite Hcalls1, Hkind.
    repeat split; try assumption. intros t [= <-] Ht. by destruct Ht.
  - edestruct (doApiCall_void (repoAddTeamAction repoOption (String c rest)))
      as (s2 & Hrun & Hcalls2 & _).
    eexists first, [_]. rewrite Hrun. simpl.
    rewrite Hcalls2, Hcalls1, <- app_assoc, Hkind.
    repeat split; try assumption.
    + intros t [= <-] _. reflexivity.
    + intros [?|?]; discriminate.
  - exists first, []. simpl. rewrite Hcalls1, Hkind.
    repeat split; try assumption. intros t [=].
Qed.

(** C10: [upsertRepo] never looks at [existingTeams]: with the same
    repositories, option, team name, backend and start state, any two team
    lists give the same result, trace and error log. *)
Theorem upsertRepo_ignores_existingTeams (teams1 teams2 : option (list Team.t))
    (existingRepos : option (list Repository.t)) (repoOption : RepoOption.t)
    (teamName : option string) (s : Run) :
  upsertRepo common world teams1 existingRepos repoOption teamName s =
  upsertRepo common world teams2 existingRepos repoOption teamName s.
Proof.
  unfold upsertRepo. simpl.
  destruct (List.find _ (default [] existingRepos)); reflexivity.
Qed.

(** *** The hook scan *)

(** One step of the scan on a readable hook: it returns, leaves the trace and
    the error log alone, and the flag is set exactly by a matching hook. *)
Lemma hookCallback_readable (tektonHook : bool) (h : Hook.t) (s : Run) :
  hookReadable h →
  ∃ found s', hookCallback tektonHook h s = (Fulfilled found, s') ∧
              calls s' = calls s ∧ errors s' = errors s ∧
              (found = true ↔ tektonHook = true ∨ hookMatches h).
Proof.
  unfold hookReadable, hookCallback, hookMatches. intros Hreadable.
  destruct (Hook.config h) as [config|].
  - destruct (Hreadable config eq_refl) as [url Hurl]. rewrite Hurl.
    destruct (includes url "el-tekton-listener") eqn:Hincl.
    + eexists true, _. rewrite bind_run. simpl.
      repeat split; try reflexivity. intros _. right. by exists config, url.
    + exists tektonHook, s. repeat split; try reflexivity; [tauto|].
      intros [Htrue|(config' & url' & [= <-] & Hurl' & Hincl')]; [assumption|].
      congruence.
  - exists tektonHook, s. repeat split; try reflexivity; [tauto|].
    intros [Htrue|(config' & url' & [=] & _)]. assumption.
Qed.

(** One step of the scan on a hook whose config has no url: it throws. *)
Lemma hookCallback_unreadable (tektonHook : bool) (h : Hook.t) (s : Run) :
  ¬ hookReadable h → ∃ e, hookCallback tektonHook h s = (Rejected e, s).
Proof.
  unfold hookReadable, hookCallback. intros Hnot.
  destruct (Hook.config h) as [config|].
  - destruct (config !! "url") as [url|] eqn:Hurl.
    + exfalso. apply Hnot. intros ? [= <-]. by rewrite Hurl.
    + eexists. reflexivity.
  - exfalso. apply Hnot. intros ? [=].
Qed.

Lemma scan_readable (hooks : list Hook.t) :
  Forall hookReadable hooks →
  ∀ (tektonHook : bool) (s : Run),
    ∃ found s', foldAsync hookCallback tektonHook hooks s = (Fulfilled found, s') ∧
                calls s' = calls s ∧ errors s' = errors s ∧
                (found = true ↔ tektonHook = true ∨ Exists hookMatches hooks).
Proof.
  induction 1 as [|h hooks Hh _ IH]; intros tektonHook s.
  - exists tektonHook, s. simpl. repeat split; try tauto.
    intros [?|?%Exists_nil]; tauto.
  - destruct (hookCallback_readable tektonHook h s Hh)
      as (found1 & s1 & Hstep & Hcalls1 & Herrors1 & Hfound1).
    destruct (IH found1 s1) as (found & s' & Hrest & Hcalls & Herrors & Hfound).
    exists found, s'. simpl. rewrite bind_run, Hstep.
    split; [exact Hrest|]. split; [congruence|]. split; [congruence|].
    rewrite Hfound, Hfound1, Exists_cons. tauto.
Qed.

Lemma scan_unreadable (hooks : list Hook.t) :
  Exists (fun h => ¬ hookReadable h) hooks →
  ∀ (tektonHook : bool) (s : Run),
    ∃ e s', foldAsync hookCallback tektonHook hooks s = (Rejected e, s') ∧
            calls s' = calls s ∧ errors s' = errors s.
Proof.
  induction hooks as [|h hooks IH]; intros Hex tektonHook s.
  - by apply Exists_nil in Hex.
  - simpl. rewrite bind_run. destruct (decide (hookReadable h)) as [Hh|Hh].
    + destruct (hookCallback_readable tektonHook h s Hh)
        as (found1 & s1 & Hstep & Hcalls1 & Herrors1 & _).
      rewrite Hstep. apply Exists_cons in Hex as [Hbad|Hex]; [contradiction|].
      destruct (IH Hex found1 s1) as (e & s' & Hrest & Hcalls & Herrors).
      exists e, s'. split; [exact Hrest|]. split; congruence.
    + destruct (hookCallback_unreadable tektonHook h s Hh) as [e Hstep].
      rewrite Hstep. by exists e, s.
Qed.

Lemma readable_or_not (hooks : list Hook.t) :
  Forall hookReadable hooks ∨ Exists (fun h => ¬ hookReadable h) hooks.
Proof.
  induction hooks as [|h hooks [IH|IH]].
  - left. constructor.
  - destruct (decide (hookReadable h)) as [Hh|Hh].
    + left. by constructor.
    + right. by apply Exists_cons_hd.
  - right. by apply Exists_cons_tl.
Qed.

Lemma readable_not_both (hooks : list Hook.t) :
  Forall hookReadable hooks → Exists (fun h => ¬ hookReadable h) hooks → False.
Proof.
  intros Hall Hex. apply Exists_exists in Hex as (h & Hin & Hbad).
  apply Hbad. by eapply Forall_forall in Hall.
Qed.

(** C9: the scan tests only that a hook has a config before it reads the
    url of that config.  It runs to its end without a runtime error exactly
    when every hook that has a config has a url in it: the condition is
    enough, and a single hook with a url-less config makes the scan throw. *)
Theorem scanHooks_total_iff_readable (hooks : list Hook.t) (s : Run) :
  ((∃ found, fst (scanHooks (Some hooks) s) = Fulfilled found)
     ↔ Forall hookReadable hooks) ∧
  ((∃ e, fst (scanHooks (Some hooks) s) = Rejected e)
     ↔ Exists (fun h => ¬ hookReadable h) hooks) ∧
  (∀ h, Hook.config h = None → hookReadable h) ∧
  (∀ h config, Hook.config h = Some config → (hookReadable h ↔ is_Some (config !! "url"))).
Proof.
  unfold scanHooks. split; [|split; [|split]].
  - split.
    + intros [found Hfound]. destruct (readable_or_not hooks) as [H|H]; [assumption|].
      destruct (scan_unreadable hooks H false s) as (e & s' & Hrun & _).
      rewrite Hrun in Hfound. discriminate.
    + intros H. destruct (scan_readable hooks H false s) as (found & s' & Hrun & _).
      exists found. by rewrite Hrun.
  - split.
    + intros [e He]. destruct (readable_or_not hooks) as [H|H]; [|assumption].
      destruct (scan_readable hooks H false s) as (found & s' & Hrun & _).
      rewrite Hrun in He. discriminate.
    + intros H. destruct (scan_unreadable hooks H false s) as (e & s' & Hrun & _).
      exists e. by rewrite Hrun.
  - intros h Hnone config Hsome. congruence.
  - intros h config Hconfig. unfold hookReadable. split.
    + intros H. by apply H.
    + intros H config' Hconfig'. congruence.
Qed.

(** *** Hook detection and installation *)

Lemma append_cons (c : Ascii.ascii) (a b : string) :
  String c a +:+ b = String c (a +:+ b).
Proof. reflexivity. Qed.

Lemma startsWith_spec (p s : string) :
  startsWith s p = true ↔ ∃ post, s = p +:+ post.
Proof.
  revert s. induction p as [|c p IH]; intros s; simpl.
  - split; [intros _; by exists s | done].
  - destruct s as [|d s].
    + split; [done | intros [post Hpost]; by rewrite append_cons in Hpost].
    + destruct (Ascii.eqb_spec c d) as [->|Hne].
      * rewrite IH. split; intros [post Hpost]; exists post.
        -- rewrite append_cons. congruence.
        -- rewrite append_cons in Hpost. congruence.
      * split; [done | intros [post Hpost]; rewrite append_cons in Hpost; congruence].
Qed.

(** [includes] is the substring test. *)
Lemma includes_spec (s sub : string) :
  includes s sub = true ↔ ∃ pre post, s = pre +:+ sub +:+ post.
Proof.
  induction s as [|d s IH]; simpl.
  - rewrite orb_false_r, startsWith_spec. split.
    + intros [post Hpost]. by exists EmptyString, post.
    + intros ([|c pre] & post & Hpost); [by exists post |].
      by rewrite append_cons in Hpost.
  - rewrite orb_true_iff, IH, startsWith_spec. split.
    + intros [[post Hpost]|(pre & post & Hpost)].
      * by exists EmptyString, post.
      * exists (String d pre), post. rewrite append_cons. by rewrite Hpost.
    + intros ([|c pre] & post & Hpost).
      * left. by exists post.
      * right. rewrite append_cons in Hpost. injection Hpost as -> Hs.
        by exists pre, post.
Qed.

Lemma hasTektonHook_run (s : Run) :
  ∃ o s', hasTektonHook common world s = (o, s') ∧
          calls s' = calls s ++ [listHooksCall common] ∧
          (Forall hookReadable (listedHooks common world s) →
           ∃ found, o = Fulfilled found ∧
                    (found = true ↔ Exists hookMatches (listedHooks common world s))) ∧
          (Exists (fun h => ¬ hookReadable h) (listedHooks common world s) →
           ∃ e, o = Rejected e).
Proof.
  unfold hasTektonHook, listHooksCall. rewrite bind_run.
  destruct (doApiCall_run
              ("Getting hooks in repo " +:+ dq +:+ "otomi/values" +:+ dq)
              (repoListHooks (orgName common) "values") (Some 400) s)
    as (s1 & Hrun & Hcalls1 & _).
  rewrite Hrun. unfold answered, listedHooks.
  destruct (api world (calls s) (repoListHooks (orgName common) "values")) as [e|hooks].
  - eexists _, _. simpl. split; [reflexivity|]. simpl.
    split; [exact Hcalls1|]. split.
    + intros _. exists false. split; [reflexivity|].
      split; [done | by intros ?%Exists_nil].
    + by intros ?%Exists_nil.
  - rewrite bind_run. unfold scanHooks.
    destruct (readable_or_not hooks) as [Hall|Hex].
    + destruct (scan_readable hooks Hall false s1)
        as (found & s2 & Hscan & Hcalls2 & _ & Hfound).
      rewrite Hscan, bind_run.
      assert (found = true ↔ Exists hookMatches hooks) as Hiff
        by (rewrite Hfound; split; [by intros [?|?] | by right]).
      destruct found; simpl.
      * eexists _, _. split; [reflexivity|]. split; [congruence|]. split.
        -- intros _. by exists true.
        -- intros Hbad. by destruct (readable_not_both hooks).
      * eexists _, _. split; [reflexivity|]. simpl. split; [congruence|]. split.
        -- intros _. by exists false.
        -- intros Hbad. by destruct (readable_not_both hooks).
    + destruct (scan_unreadable hooks Hex false s1) as (e & s2 & Hscan & Hcalls2 & _).
      rewrite Hscan. eexists _, _. split; [reflexivity|]. split; [congruence|]. split.
      * intros Hall. by destruct (readable_not_both hooks).
      * intros _. by exists e.
Qed.

Ltac run_async :=
  unfold mbind, Async_bind, mret, Async_ret, throw, tryCatch, print,
    processExit, readErrors, readNamespacedService, waitTillAvailable;
  simpl.

(** Lines 125-135: the first lookup never aborts [addHook]; it leaves the
    default address in place unless the service was found with a [spec]. *)
Lemma addHook_resolve_run (s : Run) :
  ∃ tektonUrl s1,
    addHook_resolve world s = (Fulfilled tektonUrl, s1) ∧
    calls s1 = calls s ++ [listenerLookup] ∧
    (∀ e, k8sReadNamespacedService world (calls s) "event-listener" "team-admin" = inl e →
          tektonUrl = Some defaultTektonUrl) ∧
    (∀ svc, k8sReadNamespacedService world (calls s) "event-listener" "team-admin" = inr svc →
            V1Service.spec svc = None → tektonUrl = Some defaultTektonUrl) ∧
    (∀ svc spec,
       k8sReadNamespacedService world (calls s) "event-listener" "team-admin" = inr svc →
       V1Service.spec svc = Some spec → tektonUrl = V1Service.clusterIP spec).
Proof.
  unfold addHook_resolve, listenerLookup. run_async.
  destruct (k8sReadNamespacedService world (calls s) "event-listener" "team-admin")
    as [e|svc]; simpl.
  - eexists _, _. split; [reflexivity|]. split; [reflexivity|].
    repeat split; intros; congruence.
  - destruct (V1Service.spec svc) as [spec|] eqn:Hspec; simpl.
    + eexists _, _. split; [reflexivity|]. split; [reflexivity|].
      repeat split; intros; congruence.
    + eexists _, _. split; [reflexivity|]. split; [reflexivity|].
      repeat split; intros; congruence.
Qed.

(** Lines 136-137: the second lookup rejects [addHook] when it fails. *)
Lemma addHook_reread_run (s1 : Run) :
  ∃ s2, calls s2 = calls s1 ++ [listenerLookup] ∧ errors s2 = errors s1 ∧
    match k8sReadNamespacedService world (calls s1) "event-listener" "team-admin" with
    | inr _ => addHook_reread world s1 = (Fulfilled tt, s2)
    | inl e => addHook_reread world s1 = (Rejected (HttpError e), s2)
    end.
Proof.
  unfold addHook_reread, listenerLookup. run_async.
  destruct (k8sReadNamespacedService world (calls s1) "event-listener" "team-admin");
    simpl; eexists; (split; [|split; [|reflexivity]]); reflexivity.
Qed.

(** Lines 138-155: the listing call, then the create call exactly when the
    detection returned false. *)
Lemma addHook_install_run (tektonUrl : option string) (s2 : Run) :
  ∃ o s3, addHook_install common world tektonUrl s2 = (o, s3) ∧
    ((fst (hasTektonHook common world s2) = Fulfilled false ∧ o = Fulfilled tt ∧
      calls s3 = calls s2 ++ [listHooksCall common; createHookCall common tektonUrl]) ∨
     (fst (hasTektonHook common world s2) ≠ Fulfilled false ∧
      calls s3 = calls s2 ++ [listHooksCall common])).
Proof.
  unfold addHook_install. rewrite bind_run.
  destruct (hasTektonHook_run s2) as (o & s' & Hrun & Hcalls & _).
  rewrite Hrun. simpl. destruct o as [[|]|e|c]; simpl.
  - eexists _, _. split; [reflexivity|]. right. by split.
  - edestruct doApiCall_void as (s3 & Hcreate & Hcalls3 & _).
    eexists _, s3. split; [exact Hcreate|]. left. split; [reflexivity|].
    split; [reflexivity|]. rewrite Hcalls3, Hcalls, <- app_assoc. reflexivity.
  - eexists _, _. split; [reflexivity|]. right. by split.
  - eexists _, _. split; [reflexivity|]. right. by split.
Qed.

(** The three ways a run of [addHook] can go. *)
Lemma addHook_run (s : Run) :
  ∃ tektonUrl s1,
    addHook_resolve world s = (Fulfilled tektonUrl, s1) ∧
    calls s1 = calls s ++ [listenerLookup] ∧
    ((∃ e s2,
        k8sReadNamespacedService world (calls s1) "event-listener" "team-admin" = inl e ∧
        addHook_reread world s1 = (Rejected (HttpError e), s2) ∧
        addHook common world s = (Rejected (HttpError e), s2) ∧
        calls s2 = calls s ++ [listenerLookup; listenerLookup]) ∨
     (∃ s2,
        addHook_reread world s1 = (Fulfilled tt, s2) ∧
        ((fst (hasTektonHook common world s2) = Fulfilled false ∧
          fst (addHook common world s) = Fulfilled tt ∧
          calls (snd (addHook common world s)) =
            calls s ++ [listenerLookup; listenerLookup; listHooksCall common;
                        createHookCall common tektonUrl]) ∨
         (fst (hasTektonHook common world s2) ≠ Fulfilled false ∧
          calls (snd (addHook common world s)) =
            calls s ++ [listenerLookup; listenerLookup; listHooksCall common])))).
Proof.
  destruct (addHook_resolve_run s) as (tektonUrl & s1 & Hresolve & Hcalls1 & _).
  exists tektonUrl, s1. split; [exact Hresolve|]. split; [exact Hcalls1|].
  unfold addHook. rewrite bind_run, Hresolve, bind_run.
  destruct (addHook_reread_run s1) as (s2 & Hcalls2 & _ & Hreread).
  destruct (k8sReadNamespacedService world (calls s1) "event-listener" "team-admin")
    as [e|svc].
  - left. exists e, s2. rewrite Hreread. repeat split.
    rewrite Hcalls2, Hcalls1, <- app_assoc. reflexivity.
  - right. exists s2. rewrite Hreread. split; [reflexivity|].
    destruct (addHook_install_run tektonUrl s2)
      as (o & s3 & Hinstall & [(Hfalse & -> & Hcalls3)|(Hnot & Hcalls3)]);
      rewrite Hinstall; simpl; [left|right]; repeat split; try assumption;
      rewrite Hcalls3, Hcalls2, Hcalls1, <- !app_assoc; reflexivity.
Qed.

(** C4, amended: when every listed hook that has a config has a url in it,
    [hasTektonHook] returns true exactly when some listed hook's url
    contains el-tekton-listener, and false exactly when none does; whenever
    it returns true a matching hook exists.  [addHook] issues the hook-create
    call exactly when it reaches [hasTektonHook] and that returns false. *)
Theorem hasTektonHook_detects :
  (∀ s, Forall hookReadable (listedHooks common world s) →
        (fst (hasTektonHook common world s) = Fulfilled true
           ↔ Exists hookMatches (listedHooks common world s)) ∧
        (fst (hasTektonHook common world s) = Fulfilled false
           ↔ ¬ Exists hookMatches (listedHooks common world s))) ∧
  (∀ s, fst (hasTektonHook common world s) = Fulfilled true →
        Exists hookMatches (listedHooks common world s)) ∧
  (∀ s, existsb isCreateHook (newCalls s (snd (addHook common world s))) = true
        ↔ ∃ tektonUrl s1 s2,
            addHook_resolve world s = (Fulfilled tektonUrl, s1) ∧
            addHook_reread world s1 = (Fulfilled tt, s2) ∧
            fst (hasTektonHook common world s2) = Fulfilled false).
Proof.
  split; [|split].
  - intros s Hall.
    destruct (hasTektonHook_run s) as (o & s' & Hrun & _ & Hreadable & _).
    destruct (Hreadable Hall) as (found & -> & Hfound). rewrite Hrun. simpl.
    split.
    + rewrite <- Hfound. split; [by intros [= <-] | by intros ->].
    + rewrite <- Hfound. split.
      * intros [= ->]. discriminate.
      * intros Hnot. destruct found; [by destruct Hnot | reflexivity].
  - intros s Htrue.
    destruct (hasTektonHook_run s) as (o & s' & Hrun & _ & Hreadable & Hbad).
    rewrite Hrun in Htrue. simpl in Htrue. subst o.
    destruct (readable_or_not (listedHooks common world s)) as [Hall|Hex].
    + destruct (Hreadable Hall) as (found & [= <-] & Hfound). by apply Hfound.
    + destruct (Hbad Hex) as [e [=]].
  - intros s.
    destruct (addHook_run s) as (tektonUrl & s1 & Hresolve & _ &
      [(e & s2 & _ & Hreread & Hrun & Hcalls)
      |(s2 & Hreread & [(Hfalse & _ & Hcalls)|(Hnot & Hcalls)])]).
    + rewrite Hrun. simpl. rewrite (newCalls_app _ _ _ Hcalls). simpl. split; [done|].
      intros (url' & s1' & s2' & Hresolve' & Hreread' & _).
      rewrite Hresolve in Hresolve'. injection Hresolve' as <- <-.
      rewrite Hreread in Hreread'. discriminate.
    + rewrite (newCalls_app _ _ _ Hcalls). simpl. split; [|done].
      intros _. by exists tektonUrl, s1, s2.
    + rewrite (newCalls_app _ _ _ Hcalls). simpl. split; [done|].
      intros (url' & s1' & s2' & Hresolve' & Hreread' & Hfalse).
      rewrite Hresolve in Hresolve'. injection Hresolve' as <- <-.
      rewrite Hreread in Hreread'. injection Hreread' as <-. contradiction.
Qed.

(** C8: every hook-create call that a run of [addHook] issues carries a hook
    of the Gitea type with http_method post, content_type json and the single
    event push, tolerates 304, and its url is the cluster address of the
    listener service when the first lookup found one, and the default
    in-cluster address when that lookup failed or the service had no spec. *)
Theorem addHook_created_hook (s : Run) (action owner repo : string)
    (body : CreateHookOption.t) (tolerated : option Z) :
  ApiCall action (repoCreateHook owner repo body) tolerated
    ∈ newCalls s (snd (addHook common world s)) →
  CreateHookOption.type body = CreateHookOption.Gitea ∧
  CreateHookOption.http_method (CreateHookOption.config body) = "post" ∧
  CreateHookOption.content_type (CreateHookOption.config body) = "json" ∧
  CreateHookOption.events body = ["push"] ∧
  tolerated = Some 304 ∧
  owner = orgName common ∧ repo = "values" ∧
  (∀ e, k8sReadNamespacedService world (calls s) "event-listener" "team-admin" = inl e →
        CreateHookOption.url (CreateHookOption.config body) = Some defaultTektonUrl) ∧
  (∀ svc, k8sReadNamespacedService world (calls s) "event-listener" "team-admin" = inr svc →
          V1Service.spec svc = None →
          CreateHookOption.url (CreateHookOption.config body) = Some defaultTektonUrl) ∧
  (∀ svc spec,
     k8sReadNamespacedService world (calls s) "event-listener" "team-admin" = inr svc →
     V1Service.spec svc = Some spec →
     CreateHookOption.url (CreateHookOption.config body) = V1Service.clusterIP spec).
Proof.
  intros Hin.
  destruct (addHook_resolve_run s) as (url0 & s0 & Hresolve0 & _ & Hfail & Hnospec & Hfound).
  destruct (addHook_run s) as (tektonUrl & s1 & Hresolve & _ &
    [(e & s2 & _ & _ & Hrun & Hcalls)
    |(s2 & _ & [(_ & _ & Hcalls)|(_ & Hcalls)])]).
  - rewrite Hrun in Hin. simpl in Hin. rewrite (newCalls_app _ _ _ Hcalls) in Hin.
    unfold listenerLookup in Hin.
    repeat (apply elem_of_cons in Hin as [Hin|Hin]; [discriminate|]).
    by apply elem_of_nil in Hin.
  - rewrite (newCalls_app _ _ _ Hcalls) in Hin.
    unfold listenerLookup, listHooksCall, createHookCall in Hin.
    rewrite Hresolve in Hresolve0. injection Hresolve0 as <- <-.
    apply elem_of_cons in Hin as [Hin|Hin]; [discriminate|].
    apply elem_of_cons in Hin as [Hin|Hin]; [discriminate|].
    apply elem_of_cons in Hin as [Hin|Hin]; [discriminate|].
    apply elem_of_cons in Hin as [Hin|Hin]; [|by apply elem_of_nil in Hin].
    injection Hin as -> -> -> -> ->. simpl. repeat split; assumption.
  - rewrite (newCalls_app _ _ _ Hcalls) in Hin.
    unfold listenerLookup, listHooksCall in Hin.
    repeat (apply elem_of_cons in Hin as [Hin|Hin]; [discriminate|]).
    by apply elem_of_nil in Hin.
Qed.

(** *** The end-of-run inspection *)

Lemma silent_ret {A} (a : A) : silent (mret a : Async A).
Proof. intros s. split; [done|]. exists []. by rewrite app_nil_r. Qed.

Lemma silent_throw {A} (e : Exn) : silent (throw e : Async A).
Proof. intros s. split; [done|]. exists []. by rewrite app_nil_r. Qed.

Lemma silent_bind {A B} (m : Async A) (f : A → Async B) :
  silent m → (∀ a, silent (f a)) → silent (m ≫= f).
Proof.
  intros Hm Hf s. rewrite bind_run. destruct (Hm s) as [Hexit (l1 & Hcons1 & Hl1)].
  destruct (m s) as [[a|e|c] s1]; simpl in *.
  - destruct (Hf a s1) as [Hexit2 (l2 & Hcons2 & Hl2)]. split; [exact Hexit2|].
    exists (l1 ++ l2). rewrite Hcons2, Hcons1, <- app_assoc.
    split; [reflexivity | by apply Forall_app].
  - split; [done|]. by exists l1.
  - by destruct (Hexit c).
Qed.

Lemma silent_tryCatch {A} (m : Async A) : silent m → silent (tryCatch m).
Proof.
  intros Hm s. unfold tryCatch. destruct (Hm s) as [Hexit Hcons].
  destruct (m s) as [[a|e|c] s1]; simpl in *; try (split; [done | exact Hcons]).
  by destruct (Hexit c).
Qed.

Lemma silent_print (c : Console) : isReport c = false → silent (print c).
Proof. intros Hc s. split; [done|]. exists [c]. split; [reflexivity | by constructor]. Qed.

Lemma silent_doApiCall (action : string) (op : ApiOp) (tolerated : option Z) :
  silent (doApiCall world action op tolerated).
Proof.
  intros s. destruct (doApiCall_run action op tolerated s) as (s' & Hrun & _ & Hcons).
  rewrite Hrun. split; [done|]. exists []. by rewrite app_nil_r.
Qed.

Lemma silent_readNamespacedService (name namespace : string) :
  silent (readNamespacedService world name namespace).
Proof.
  intros s. unfold readNamespacedService.
  destruct (k8sReadNamespacedService world (calls s) name namespace);
    (split; [done|]); exists []; by rewrite app_nil_r.
Qed.

Lemma silent_waitTillAvailable (url : string) : silent (waitTillAvailable world url).
Proof.
  intros s. unfold waitTillAvailable.
  destruct (available world (calls s) url);
    (split; [done|]); exists []; by rewrite app_nil_r.
Qed.

Lemma silent_foldAsync {A B} (f : B → A → Async B) (l : list A) :
  (∀ acc x, silent (f acc x)) → ∀ acc, silent (foldAsync f acc l).
Proof.
  intros Hf. induction l as [|x l IH]; intros acc; simpl.
  - apply silent_ret.
  - apply silent_bind; [apply Hf | exact IH].
Qed.

Create HintDb silent.
#[local] Hint Resolve silent_ret silent_throw silent_doApiCall
  silent_readNamespacedService silent_waitTillAvailable : silent.

(** Splits a computation along its binds and branches. *)
Ltac silent_step :=
  match goal with
  | |- silent (mbind _ _) => apply silent_bind; [|intros ?]
  | |- silent (tryCatch _) => apply silent_tryCatch
  | |- silent (print _) => by apply silent_print
  | |- silent (doApiCall _ ?action ?op ?tolerated) =>
      exact (silent_doApiCall action op tolerated)
  | |- silent (foldAsync _ _ _) => apply silent_foldAsync; intros ? ?
  | |- silent (inTurn _ _) => apply silent_foldAsync; intros ? ?
  | |- silent (match ?x with _ => _ end) => destruct x
  | |- silent _ => solve [auto with silent]
  end.

Lemma silent_upsertTeam (existingTeams : option (list Team.t))
    (teamOption : CreateTeamOption.t) :
  silent (upsertTeam common world existingTeams teamOption).
Proof. unfold upsertTeam. repeat silent_step. Qed.

Lemma silent_upsertRepo (existingTeams : option (list Team.t))
    (existingRepos : option (list Repository.t)) (repoOption : RepoOption.t)
    (teamName : option string) :
  silent (upsertRepo common world existingTeams existingRepos repoOption teamName).
Proof. unfold upsertRepo. repeat silent_step. Qed.

Lemma silent_hasTektonHook : silent (hasTektonHook common world).
Proof. unfold hasTektonHook, scanHooks, hookCallback. repeat silent_step. Qed.

Lemma silent_addHook : silent (addHook common world).
Proof.
  unfold addHook, addHook_resolve, addHook_reread, addHook_install.
  repeat silent_step; apply silent_hasTektonHook.
Qed.

Lemma silent_round (bs : list Branch) :
  Forall (Forall silent) bs → silent (round bs).
Proof.
  unfold round. induction 1 as [|b bs Hb _ IH]; simpl.
  - apply silent_ret.
  - apply silent_bind; [|intros []; exact IH].
    destruct Hb as [|stage rest Hstage _]; [apply silent_ret | exact Hstage].
Qed.

Lemma silent_promiseAll (bs : list Branch) :
  Forall (Forall silent) bs → silent (promiseAll bs).
Proof.
  unfold promiseAll. generalize (max_list (map length bs)). intros n. revert bs.
  induction n as [|n IH]; intros bs Hbs; simpl; [apply silent_ret|].
  apply silent_bind; [by apply silent_round|]. intros _. apply IH.
  induction Hbs as [|b bs Hb _ IHbs]; simpl; constructor; [|exact IHbs].
  destruct Hb; [constructor | assumption].
Qed.

Lemma silent_upsertTenantTeams (existingTeams : option (list Team.t)) :
  silent (upsertTenantTeams common env world existingTeams).
Proof.
  unfold upsertTenantTeams. apply silent_promiseAll.
  induction (teamIds env) as [|teamId l IH]; simpl; constructor; [|exact IH].
  constructor; [apply silent_upsertTeam | constructor].
Qed.

Lemma silent_upsertArgoRepos (existingTeams : option (list Team.t))
    (existingRepos : option (list Repository.t)) :
  silent (upsertArgoRepos common env world existingTeams existingRepos).
Proof.
  unfold upsertArgoRepos. apply silent_promiseAll.
  induction (teamIds env) as [|teamId l IH]; simpl; constructor; [|exact IH].
  unfold upsertRepo_stages. constructor.
  - unfold upsertRepo_save. repeat silent_step.
  - constructor; [|constructor]. unfold upsertRepo_bind. repeat silent_step.
Qed.

#[local] Hint Resolve silent_upsertTeam silent_upsertRepo silent_addHook
  silent_upsertTenantTeams silent_upsertArgoRepos : silent.

(** Lines 228-233. *)
Lemma reportErrors_inspects (s : Run) :
  inspected (fst (reportErrors s)) (snd (reportErrors s)).
Proof.
  unfold reportErrors, inspected. run_async.
  destruct (errors s) as [|e errs] eqn:Herrors; simpl.
  - split; [assumption|]. by rewrite last_snoc.
  - rewrite Herrors. repeat split; [done|]. by rewrite last_snoc.
Qed.

(** A silent prefix does not change how the rest of the run ends. *)
Lemma inspected_after {A} (m : Async A) (f : A → Async unit) :
  silent m →
  (∀ a s, inspected (fst (f a s)) (snd (f a s))) →
  ∀ s, inspected (fst ((m ≫= f) s)) (snd ((m ≫= f) s)).
Proof.
  intros Hm Hf s. rewrite bind_run. destruct (Hm s) as [Hexit _].
  destruct (m s) as [[a|e|c] s1]; simpl in *; [apply Hf | exact I | by destruct (Hexit c)].
Qed.

(** X3: with Argo enabled every run that is not rejected ends in the
    inspection of the error log: success is printed on an empty log, and a
    non-empty log is printed before the process exits with status 1. *)
Lemma main_with_argo_inspects (s : Run) :
  hasArgo env = true →
  inspected (fst (main common env world s)) (snd (main common env world s)).
Proof.
  intros Hargo. unfold main. rewrite Hargo. simpl negb.
  revert s.
  repeat match goal with
         | |- ∀ s, inspected (fst (mbind _ _ s)) _ =>
             apply inspected_after; [repeat silent_step | intros ?]
         end.
  exact reportErrors_inspects.
Qed.

(** X4: with Argo disabled no run inspects the error log: whatever was recorded,
    [main] prints no report and never exits with a status of its own. *)
Lemma main_without_argo_silent : hasArgo env = false → silent (main common env world).
Proof.
  intros Hargo. unfold main. rewrite Hargo. simpl negb.
  repeat silent_step.
Qed.

(** *** The two listener lookups of [addHook] *)

(** X10: when the lookup fails twice, [addHook] is rejected after the two lookups:
    no hook is listed or created. *)
Lemma addHook_aborts_when_lookup_keeps_failing (s : Run) (e1 e2 : ApiError) :
  k8sReadNamespacedService world (calls s) "event-listener" "team-admin" = inl e1 →
  k8sReadNamespacedService world (calls s ++ [listenerLookup]) "event-listener" "team-admin"
    = inl e2 →
  fst (addHook common world s) = Rejected (HttpError e2) ∧
  newCalls s (snd (addHook common world s)) = [listenerLookup; listenerLookup].
Proof.
  intros _ Hsecond.
  destruct (addHook_run s) as (tektonUrl & s1 & _ & Hcalls1 &
    [(e & s2 & Hfail & _ & Hrun & Hcalls)|(s2 & Hreread & _)]).
  - rewrite Hcalls1, Hsecond in Hfail. injection Hfail as <-.
    rewrite Hrun. simpl. split; [reflexivity | by apply newCalls_app].
  - destruct (addHook_reread_run s1) as (s2' & _ & _ & Hreread').
    rewrite Hcalls1, Hsecond, Hreread in Hreread'. discriminate.
Qed.

(** X11: when only the first lookup fails, [addHook] goes on to list the hooks,
    and a hook it creates points at the default address. *)
Lemma addHook_falls_back_when_reread_succeeds (s : Run) (e : ApiError)
    (svc : V1Service.t) :
  k8sReadNamespacedService world (calls s) "event-listener" "team-admin" = inl e →
  k8sReadNamespacedService world (calls s ++ [listenerLookup]) "event-listener" "team-admin"
    = inr svc →
  newCalls s (snd (addHook common world s)) =
    [listenerLookup; listenerLookup; listHooksCall common;
     createHookCall common (Some defaultTektonUrl)] ∨
  newCalls s (snd (addHook common world s)) =
    [listenerLookup; listenerLookup; listHooksCall common].
Proof.
  intros Hfirst Hsecond.
  destruct (addHook_resolve_run s) as (url0 & s0 & Hresolve0 & _ & Hdefault & _).
  specialize (Hdefault e Hfirst). subst url0.
  destruct (addHook_run s) as (tektonUrl & s1 & Hresolve & Hcalls1 &
    [(e' & s2 & Hfail & _)|(s2 & _ & [(_ & _ & Hcalls)|(_ & Hcalls)])]).
  - rewrite Hcalls1, Hsecond in Hfail. discriminate.
  - rewrite Hresolve in Hresolve0. injection Hresolve0 as -> _.
    left. by apply newCalls_app.
  - right. by apply newCalls_app.
Qed.

(** *** Availability of the backend *)

(** X2: when the availability wait fails, [main] is rejected with that failure
    at once: the wait is the only external call, no backend operation is
    started, and neither the error log nor the console is touched. *)
Lemma main_aborts_when_unavailable (s : Run) (e : ApiError) :
  available world (calls s) (GITEA_URL env) = inl e →
  fst (main common env world s) = Rejected (HttpError e) ∧
  newCalls s (snd (main common env world s)) = [WaitAvailable (GITEA_URL env)] ∧
  errors (snd (main common env world s)) = errors s ∧
  console (snd (main common env world s)) = console s.
Proof.
  intros Hdown. unfold main. rewrite bind_run. unfold waitTillAvailable.
  rewrite Hdown. simpl. repeat split. by apply newCalls_app.
Qed.

(** *** A failed hook listing *)

(** X12: when the listing of the hooks fails, whatever the status, the detection
    returns false, and the installation step goes on to create the hook. *)
Lemma addHook_creates_when_listing_fails (tektonUrl : option string) (s : Run)
    (e : ApiError) :
  api world (calls s) (repoListHooks (orgName common) "values") = inl e →
  fst (hasTektonHook common world s) = Fulfilled false ∧
  fst (addHook_install common world tektonUrl s) = Fulfilled tt ∧
  newCalls s (snd (addHook_install common world tektonUrl s)) =
    [listHooksCall common; createHookCall common tektonUrl].
Proof.
  intros Hfail.
  assert (listedHooks common world s = []) as Hnone
    by (unfold listedHooks; by rewrite Hfail).
  assert (fst (hasTektonHook common world s) = Fulfilled false) as Hfalse.
  { destruct (hasTektonHook_run s) as (o & s' & Hrun & _ & Hreadable & _).
    rewrite Hnone in Hreadable.
    destruct (Hreadable (List.Forall_nil _)) as (found & -> & Hfound).
    rewrite Hrun. simpl. destruct found; [|reflexivity].
    destruct Hfound as [Hex _]. specialize (Hex eq_refl). by apply Exists_nil in Hex. }
  split; [exact Hfalse|].
  destruct (addHook_install_run tektonUrl s)
    as (o & s3 & Hrun & [(_ & -> & Hcalls)|(Hnot & _)]); [|contradiction].
  rewrite Hrun. simpl. split; [reflexivity | by apply newCalls_app].
Qed.

(** *** The API base path *)

Lemma stripTrailingSlash_slash (t : string) : stripTrailingSlash (t +:+ "/") = t.
Proof.
  induction t as [|c t IH]; [reflexivity|].
  rewrite append_cons. simpl. rewrite IH.
  destruct t as [|d t]; reflexivity.
Qed.

Lemma stripTrailingSlash_other (s : string) :
  (∀ t, s ≠ t +:+ "/") → stripTrailingSlash s = s.
Proof.
  induction s as [|c s IH]; intros Hs; [reflexivity|].
  destruct s as [|d s].
  - simpl. destruct (Ascii.eqb_spec c (Ascii.ascii_of_nat 47)) as [->|_]; [|reflexivity].
    by destruct (Hs EmptyString).
  - change (String c (stripTrailingSlash (String d s)) = String c (String d s)).
    rewrite IH; [reflexivity|].
    intros t Ht. apply (Hs (String c t)). rewrite append_cons. by rewrite Ht.
Qed.

(** X9: both API clients are built on GITEA_URL without one trailing slash,
    followed by /api/v1: exactly one slash is removed when the URL ends with
    one, and the URL is used as it is when it does not. *)
Lemma apiBasePath_strips_one_slash :
  (∀ t, GITEA_URL env = t +:+ "/" → apiBasePath env = t +:+ "/api/v1") ∧
  ((∀ t, GITEA_URL env ≠ t +:+ "/") → apiBasePath env = GITEA_URL env +:+ "/api/v1").
Proof.
  unfold apiBasePath, giteaUrl. split.
  - intros t ->. by rewrite stripTrailingSlash_slash.
  - intros Hs. by rewrite stripTrailingSlash_other.
Qed.

(** *** Names derived from tenant ids *)

Lemma length_append (a b : string) :
  String.length (a +:+ b) = (String.length a + String.length b)%nat.
Proof. induction a as [|c a IH]; [reflexivity|]. rewrite append_cons. simpl. by rewrite IH. Qed.

Lemma append_cancel_r (a b c : string) : a +:+ c = b +:+ c → a = b.
Proof.
  revert b. induction a as [|x a IH]; intros [|y b] Heq.
  - reflexivity.
  - apply (f_equal String.length) in Heq. rewrite !length_append in Heq.
    simpl in Heq. lia.
  - apply (f_equal String.length) in Heq. rewrite !length_append in Heq.
    simpl in Heq. lia.
  - rewrite !append_cons in Heq. injection Heq as -> Heq. f_equal. by apply IH.
Qed.

(** X8: distinct tenants get distinct team names and distinct companion
    repository names. *)
Lemma tenant_names_distinct (teamId1 teamId2 : string) :
  (CreateTeamOption.name (tenantTeam common env teamId1) =
   CreateTeamOption.name (tenantTeam common env teamId2) → teamId1 = teamId2) ∧
  (RepoOption.name (argoRepoOption common teamId1) =
   RepoOption.name (argoRepoOption common teamId2) → teamId1 = teamId2).
Proof.
  split.
  - destruct (tenantTeam_spec teamId1) as (-> & _).
    destruct (tenantTeam_spec teamId2) as (-> & _).
    intros Heq. injection Heq as Heq. exact Heq.
  - unfold argoRepoOption. simpl. intros Heq. injection Heq as Heq.
    change (teamId1 +:+ "-argocd" = teamId2 +:+ "-argocd") in Heq.
    by apply append_cancel_r in Heq.
Qed.

(** *** The order of the calls of [main] *)

(** [upsertRepo] with the calls it makes. *)
Lemma upsertRepo_trace (existingTeams : option (list Team.t))
    (existingRepos : option (list Repository.t)) (repoOption : RepoOption.t)
    (teamName : option string) (s : Run) :
  ∃ first bind s',
    upsertRepo common world existingTeams existingRepos repoOption teamName s
      = (Fulfilled tt, s') ∧
    calls s' = calls s ++ first :: bind ∧
    console s' = console s ∧
    (first = createRepoCall common repoOption ∨ first = editRepoCall common repoOption) ∧
    (truthy teamName = false → bind = []) ∧
    (∀ c rest, teamName = Some (String c rest) →
               bind = [bindTeamCall common repoOption (String c rest)]).
Proof.
  unfold upsertRepo. rewrite bind_run.
  assert (∃ first s1,
    match List.find
            (fun el => bool_decide (Repository.name el = RepoOption.name repoOption))
            (default [] existingRepos) with
    | Some _ =>
        doApiCall world (repoUpdateAction common repoOption)
          (repoEdit (orgName common) (RepoOption.name repoOption) repoOption) (Some 422) ;;
        mret tt
    | None =>
        doApiCall world (repoCreateAction common repoOption)
          (createOrgRepo (orgName common) repoOption) (Some 422) ;; mret tt
    end s = (Fulfilled tt, s1) ∧ calls s1 = calls s ++ [first] ∧ console s1 = console s ∧
    (first = createRepoCall common repoOption ∨ first = editRepoCall common repoOption))
    as (first & s1 & Hfirst & Hcalls1 & Hcons1 & Hkind).
  { destruct (List.find _ _);
      edestruct doApiCall_void as (s1 & Hrun & Hcalls & Hcons);
      eexists _, s1; (split; [exact Hrun|]); (split; [exact Hcalls|]);
      (split; [exact Hcons|]); [by right | by left]. }
  rewrite Hfirst.
  destruct teamName as [[|c rest]|].
  - exists first, [], s1. simpl. repeat split; try assumption. intros ? ? [=].
  - edestruct (doApiCall_void (repoAddTeamAction repoOption (String c rest)))
      as (s2 & Hrun & Hcalls2 & Hcons2).
    eexists first, [_], s2. rewrite Hrun.
    split; [reflexivity|]. split; [by rewrite Hcalls2, Hcalls1, <- app_assoc|].
    split; [congruence|]. split; [assumption|].
    split; [discriminate|]. intros ? ? [= <- <-]. reflexivity.
  - exists first, [], s1. simpl. repeat split; try assumption. intros ? ? [=].
Qed.

Lemma Forall2_concat_singletons {A B} (Q : A → B → Prop) (l : list A)
    (parts : list (list B)) :
  Forall2 (fun x part => ∃ y, part = [y] ∧ Q x y) l parts → Forall2 Q l (concat parts).
Proof.
  induction 1 as [|x part l parts (y & -> & Hy) _ IH]; simpl; by constructor.
Qed.

Lemma Forall2_map_eq {A B} (g : A → B) (l : list A) (l' : list B) :
  Forall2 (fun x y => y = g x) l l' → l' = map g l.
Proof. induction 1 as [|x y l l' -> _ IH]; simpl; [reflexivity | by rewrite IH]. Qed.

Lemma upsertRepo_save_run (existingRepos : option (list Repository.t))
    (repoOption : RepoOption.t) (s : Run) :
  ∃ s' evs, upsertRepo_save common world existingRepos repoOption s = (Fulfilled tt, s') ∧
            calls s' = calls s ++ evs ∧ console s' = console s ∧
            ∃ first, evs = [first] ∧
                     (first = createRepoCall common repoOption ∨
                      first = editRepoCall common repoOption).
Proof.
  unfold upsertRepo_save.
  destruct (List.find _ _);
    edestruct doApiCall_void as (s1 & Hrun & Hcalls & Hcons);
    eexists s1, _; (split; [exact Hrun|]); (split; [exact Hcalls|]);
    (split; [exact Hcons|]); eexists; (split; [reflexivity|]); [by right | by left].
Qed.

Lemma upsertRepo_bind_run (repoOption : RepoOption.t) (teamName : string) (s : Run) :
  ∃ s' evs, upsertRepo_bind common world repoOption teamName s = (Fulfilled tt, s') ∧
            calls s' = calls s ++ evs ∧ console s' = console s ∧
            ∃ bind, evs = [bind] ∧ bind = bindTeamCall common repoOption teamName.
Proof.
  unfold upsertRepo_bind.
  edestruct doApiCall_void as (s1 & Hrun & Hcalls & Hcons).
  eexists s1, _. split; [exact Hrun|]. split; [exact Hcalls|]. split; [exact Hcons|].
  by eexists.
Qed.

(** The fan-out of the per-tenant repositories: the create or edit call of
    every tenant, then the binding call of every tenant. *)
Lemma upsertArgoRepos_trace (existingTeams : option (list Team.t))
    (existingRepos : option (list Repository.t)) (s : Run) :
  ∃ s' firsts,
    upsertArgoRepos common env world existingTeams existingRepos s = (Fulfilled tt, s') ∧
    calls s' = calls s ++ firsts ++
      map (fun teamId =>
             bindTeamCall common (argoRepoOption common teamId) ("team-" +:+ teamId))
        (teamIds env) ∧
    console s' = console s ∧
    Forall2
      (fun teamId first =>
         first = createRepoCall common (argoRepoOption common teamId) ∨
         first = editRepoCall common (argoRepoOption common teamId))
      (teamIds env) firsts.
Proof.
  unfold upsertArgoRepos.
  rewrite (promiseAll_two_stages _
    (fun teamId => upsertRepo_save common world existingRepos (argoRepoOption common teamId))
    (fun teamId =>
       upsertRepo_bind common world (argoRepoOption common teamId) ("team-" +:+ teamId)))
    by reflexivity.
  rewrite bind_run.
  destruct (promiseAll_trace
    (fun teamId => upsertRepo_save common world existingRepos (argoRepoOption common teamId))
    (fun teamId part => ∃ first, part = [first] ∧
       (first = createRepoCall common (argoRepoOption common teamId) ∨
        first = editRepoCall common (argoRepoOption common teamId)))
    (fun teamId s0 => upsertRepo_save_run existingRepos (argoRepoOption common teamId) s0)
    (teamIds env) s) as (s1 & parts1 & Hrun1 & Hcalls1 & Hcons1 & Hfirsts).
  destruct (promiseAll_trace
    (fun teamId =>
       upsertRepo_bind common world (argoRepoOption common teamId) ("team-" +:+ teamId))
    (fun teamId part => ∃ bind, part = [bind] ∧
       bind = bindTeamCall common (argoRepoOption common teamId) ("team-" +:+ teamId))
    (fun teamId s0 =>
       upsertRepo_bind_run (argoRepoOption common teamId) ("team-" +:+ teamId) s0)
    (teamIds env) s1) as (s2 & parts2 & Hrun2 & Hcalls2 & Hcons2 & Hbinds).
  rewrite Hrun1, Hrun2. exists s2, (concat parts1).
  split; [reflexivity|]. split; [|split; [congruence|]].
  - apply Forall2_concat_singletons, Forall2_map_eq in Hbinds.
    rewrite Hcalls2, Hcalls1, Hbinds, <- app_assoc. reflexivity.
  - by apply Forall2_concat_singletons.
Qed.

(** X5: the fan-out of the per-tenant repositories returns after two calls
    per tenant.  First come the create or edit calls of the repositories
    team-<id>-argocd, one per tenant in [teamIds] order; only then the
    bindings of each of these repositories to team-<id>, tolerating 422, one
    per tenant, in the order in which the answers to the first calls come. *)
Lemma upsertArgoRepos_binds_owner (existingTeams : option (list Team.t))
    (existingRepos : option (list Repository.t)) (s : Run) :
  fst (upsertArgoRepos common env world existingTeams existingRepos s) = Fulfilled tt ∧
  ∃ firsts binds,
    newCalls s (snd (upsertArgoRepos common env world existingTeams existingRepos s))
      = firsts ++ binds ∧
    Forall2
      (fun teamId first =>
         first = createRepoCall common (argoRepoOption common teamId) ∨
         first = editRepoCall common (argoRepoOption common teamId))
      (teamIds env) firsts ∧
    binds ≡ₚ
      map (fun teamId =>
             ApiCall
               (repoAddTeamAction (argoRepoOption common teamId) ("team-" +:+ teamId))
               (repoAddTeam (orgName common) (Some ("team-" +:+ teamId +:+ "-argocd"))
                  ("team-" +:+ teamId))
               (Some 422))
        (teamIds env).
Proof.
  destruct (upsertArgoRepos_trace existingTeams existingRepos s)
    as (s' & firsts & Hrun & Hcalls & _ & Hfirsts).
  rewrite Hrun. simpl. split; [reflexivity|].
  eexists firsts, _. split; [by apply newCalls_app|]. split; [exact Hfirsts|].
  reflexivity.
Qed.

(** What follows [addHook] in [main] only adds calls to the trace. *)
Lemma afterHook_extends (existingTeams : option (list Team.t))
    (existingRepos : option (list Repository.t)) (s : Run) :
  ∃ added, calls (snd (afterHook common env world existingTeams existingRepos s))
           = calls s ++ added.
Proof.
  unfold afterHook. destruct (hasArgo env); simpl.
  - rewrite bind_run.
    destruct (upsertArgoRepos_trace existingTeams existingRepos s)
      as (s' & firsts & Hrun & Hcalls & _).
    rewrite Hrun. eexists. rewrite <- Hcalls.
    unfold reportErrors. run_async. by destruct (errors s').
  - exists []. by rewrite app_nil_r.
Qed.

(** X1: once the backend is available, [main] makes its calls in a fixed order:
    the wait, the creation of the organisation, the listing of the teams, one
    team call per tenant in [teamIds] order, the viewer team, the listing of
    the repositories, the create or edit of the values repository, its
    binding to the viewer team, and the two listener lookups of [addHook];
    whatever else it does comes after. *)
Lemma main_call_order (s : Run) :
  available world (calls s) (GITEA_URL env) = inr tt →
  ∃ teamCalls viewerCall repoCall tail,
    newCalls s (snd (main common env world s)) =
      [WaitAvailable (GITEA_URL env); orgCreateCall common; listTeamsCall common] ++
      teamCalls ++
      [viewerCall; listReposCall common; repoCall; bindViewerCall common;
       listenerLookup; listenerLookup] ++
      tail ∧
    Forall2
      (fun teamId ev => ∃ op,
         ev = ApiCall (teamAction common (tenantTeam common env teamId)) op (Some 422) ∧
         teamOptionOf op = Some (tenantTeam common env teamId))
      (teamIds env) teamCalls ∧
    (∃ op, viewerCall = ApiCall (teamAction common (readOnlyTeam common)) op (Some 422) ∧
           teamOptionOf op = Some (readOnlyTeam common)) ∧
    (repoCall = createRepoCall common (repoOption common) ∨
     repoCall = editRepoCall common (repoOption common)).
Proof.
  intros Hup.
  assert (waitTillAvailable world (GITEA_URL env) s
          = (Fulfilled tt, record (WaitAvailable (GITEA_URL env)) s)) as Hwait
    by (unfold waitTillAvailable; by rewrite Hup).
  set (s1 := record (WaitAvailable (GITEA_URL env)) s) in *.
  destruct (doApiCall_run ("Creating org " +:+ dq +:+ orgName common +:+ dq)
              (orgCreate (orgOption common)) (Some 422) s1) as (s2 & Hrun2 & Hcalls2 & _).
  destruct (doApiCall_run ("Getting all teams in org " +:+ dq +:+ orgName common +:+ dq)
              (orgListTeams (orgName common)) None s2) as (s3 & Hrun3 & Hcalls3 & _).
  set (existingTeams := answered world s2 (orgListTeams (orgName common))) in *.
  destruct (promiseAll_trace
    (fun teamId => upsertTeam common world existingTeams (tenantTeam common env teamId))
    (fun teamId part => ∃ ev, part = [ev] ∧ ∃ op,
       ev = ApiCall (teamAction common (tenantTeam common env teamId)) op (Some 422) ∧
       teamOptionOf op = Some (tenantTeam common env teamId))) with (l := teamIds env) (s := s3)
    as (s4 & parts & Hrun4 & Hcalls4 & _ & Hparts).
  { intros teamId s0.
    destruct (upsertTeam_run existingTeams (tenantTeam common env teamId) s0)
      as (op & s' & Hrun & Hcalls & Hcons & Hop).
    exists s', [ApiCall (teamAction common (tenantTeam common env teamId)) op (Some 422)].
    repeat split; try assumption. eexists. split; [reflexivity|]. by exists op. }
  apply Forall2_concat_singletons in Hparts.
  destruct (upsertTeam_run existingTeams (readOnlyTeam common) s4)
    as (viewerOp & s5 & Hrun5 & Hcalls5 & _ & Hviewer).
  destruct (doApiCall_run ("Getting all repos in org " +:+ dq +:+ orgName common +:+ dq)
              (orgListRepos (orgName common)) None s5) as (s6 & Hrun6 & Hcalls6 & _).
  set (existingRepos := answered world s5 (orgListRepos (orgName common))) in *.
  destruct (upsertRepo_trace existingTeams existingRepos (repoOption common) None s6)
    as (repoCall & bind & s7 & Hrun7 & Hcalls7 & _ & Hkind & Hbind & _).
  rewrite (Hbind eq_refl) in Hcalls7.
  destruct (doApiCall_run "Adding repo values to team otomi-viewer"
              (repoAddTeam (orgName common) (Some "values") "otomi-viewer") (Some 422) s7)
    as (s8 & Hrun8 & Hcalls8 & _).
  assert (main common env world s
          = (addHook common world ;; afterHook common env world existingTeams existingRepos) s8)
    as Hmain.
  { unfold main.
    rewrite bind_run, Hwait, bind_run, Hrun2, bind_run, Hrun3.
    fold existingTeams.
    rewrite bind_run, upsertTenantTeams_in_turn, Hrun4, bind_run, Hrun5, bind_run, Hrun6.
    fold existingRepos.
    rewrite bind_run, Hrun7, bind_run, Hrun8. reflexivity. }
  assert (∃ hookCalls,
    calls (snd ((addHook common world ;;
                 afterHook common env world existingTeams existingRepos) s8))
    = calls s8 ++ [listenerLookup; listenerLookup] ++ hookCalls) as [tail Htail].
  { rewrite bind_run.
    destruct (addHook_run s8) as (tektonUrl & s9 & _ & _ &
      [(e & s10 & _ & _ & Hrun & Hcalls)
      |(s10 & _ & [(_ & Hok & Hcalls)|(_ & Hcalls)])]).
    - rewrite Hrun. exists []. exact Hcalls.
    - destruct (addHook common world s8) as [o s11]. simpl in Hok, Hcalls. subst o.
      destruct (afterHook_extends existingTeams existingRepos s11) as [added Hadded].
      eexists. rewrite Hadded, Hcalls, <- app_assoc. reflexivity.
    - destruct (addHook common world s8) as [[[]|e|c] s11]; simpl in Hcalls.
      + destruct (afterHook_extends existingTeams existingRepos s11) as [added Hadded].
        eexists. rewrite Hadded, Hcalls, <- app_assoc. reflexivity.
      + eexists. simpl. rewrite Hcalls. reflexivity.
      + eexists. simpl. rewrite Hcalls. reflexivity. }
  exists (concat parts), (ApiCall (teamAction common (readOnlyTeam common)) viewerOp (Some 422)),
         repoCall, tail.
  split; [|split; [exact Hparts|split; [by exists viewerOp | exact Hkind]]].
  apply newCalls_app. rewrite Hmain, Htail, Hcalls8, Hcalls7, Hcalls6, Hcalls5, Hcalls4,
    Hcalls3, Hcalls2.
  unfold orgCreateCall, listTeamsCall, listReposCall, bindViewerCall. subst s1. simpl.
  rewrite <- !app_assoc. reflexivity.
Qed.

(** *** The team fan-out on a fresh and on a converged backend *)

Lemma upsertTeam_creates (existingTeams : option (list Team.t))
    (teamOption : CreateTeamOption.t) (s : Run) :
  (∀ t, t ∈ default [] existingTeams → Team.name t ≠ CreateTeamOption.name teamOption) →
  ∃ s', upsertTeam common world existingTeams teamOption s = (Fulfilled tt, s') ∧
        calls s' = calls s ++ [createTeamCall common teamOption] ∧
        console s' = console s.
Proof.
  intros Hnone. unfold upsertTeam.
  destruct (List.find _ (default [] existingTeams)) as [found|] eqn:Hfind.
  - exfalso. destruct (find_first _ _ _ Hfind) as (before & after & Hsplit & Hname & _).
    apply bool_decide_eq_true in Hname. apply (Hnone found); [|assumption].
    rewrite Hsplit. apply elem_of_app. right. apply elem_of_cons. by left.
  - apply doApiCall_void.
Qed.

Lemma upsertTeam_edits (existingTeams : option (list Team.t))
    (teamOption : CreateTeamOption.t) (s : Run) :
  (∃ t, t ∈ default [] existingTeams ∧ Team.name t = CreateTeamOption.name teamOption) →
  ∃ t s', t ∈ default [] existingTeams ∧
          Team.name t = CreateTeamOption.name teamOption ∧
          upsertTeam common world existingTeams teamOption s = (Fulfilled tt, s') ∧
          calls s' = calls s ++ [editTeamCall common (Team.id t) teamOption] ∧
          console s' = console s.
Proof.
  intros (t & Ht & Hname). unfold upsertTeam.
  destruct (List.find _ (default [] existingTeams)) as [found|] eqn:Hfind.
  - destruct (find_first _ _ _ Hfind) as (before & after & Hsplit & Hfound & _).
    apply bool_decide_eq_true in Hfound.
    destruct (doApiCall_void (teamAction common teamOption)
                (orgEditTeam (Team.id found) teamOption) (Some 422) s)
      as (s' & Hrun & Hcalls & Hcons).
    exists found, s'. repeat split; try assumption.
    rewrite Hsplit. apply elem_of_app. right. apply elem_of_cons. by left.
  - exfalso. pose proof (find_absent _ _ Hfind t Ht) as Hf.
    by apply bool_decide_eq_false in Hf.
Qed.

(** [promiseAll_trace] for branches known to return on the elements of the
    list only. *)
Lemma promiseAll_trace_on {A} (f : A → Async unit) (P : A → list Event → Prop)
    (l : list A) :
  (∀ x, x ∈ l → ∀ s, ∃ s' evs, f x s = (Fulfilled tt, s') ∧ calls s' = calls s ++ evs ∧
                                 P x evs) →
  ∀ s, ∃ s' parts, inTurn f l s = (Fulfilled tt, s') ∧
                   calls s' = calls s ++ concat parts ∧ Forall2 P l parts.
Proof.
  unfold inTurn. induction l as [|x l IH]; intros Hf s.
  - exists s, []. simpl. rewrite app_nil_r. repeat split. constructor.
  - destruct (Hf x (list_elem_of_here x l) s) as (s1 & evs & Hx & Hcalls1 & HP).
    destruct (IH (fun y Hy => Hf y (list_elem_of_further y x l Hy)) s1)
      as (s2 & parts & Hl & Hcalls2 & HPs).
    exists s2, (evs :: parts). simpl. rewrite bind_run, Hx.
    split; [exact Hl|]. split.
    + rewrite Hcalls2, Hcalls1. by rewrite <- app_assoc.
    + by constructor.
Qed.

(** X6: when no listed team bears the name of any tenant team (a fresh backend,
    or a failed listing), the team fan-out makes exactly one create call per
    tenant, in [teamIds] order, and no edit call. *)
Lemma upsertTenantTeams_creates_on_fresh_backend (existingTeams : option (list Team.t))
    (s : Run) :
  (∀ teamId t, teamId ∈ teamIds env → t ∈ default [] existingTeams →
               Team.name t ≠ Some ("team-" +:+ teamId)) →
  newCalls s (snd (upsertTenantTeams common env world existingTeams s)) =
    map (fun teamId => createTeamCall common (tenantTeam common env teamId)) (teamIds env).
Proof.
  intros Hfresh. rewrite upsertTenantTeams_in_turn.
  destruct (promiseAll_trace_on
    (fun teamId => upsertTeam common world existingTeams (tenantTeam common env teamId))
    (fun teamId part => ∃ ev, part = [ev] ∧
       ev = createTeamCall common (tenantTeam common env teamId)) (teamIds env))
    with (s := s) as (s' & parts & Hrun & Hcalls & Hparts).
  { intros teamId Hin s0.
    destruct (upsertTeam_creates existingTeams (tenantTeam common env teamId) s0)
      as (s1 & Hrun & Hcalls & _).
    - intros t Ht. destruct (tenantTeam_spec teamId) as (-> & _). by apply Hfresh.
    - exists s1, [createTeamCall common (tenantTeam common env teamId)].
      repeat split; try assumption. by eexists. }
  rewrite Hrun. simpl. rewrite (newCalls_app _ _ _ Hcalls).
  apply Forall2_map_eq. by apply Forall2_concat_singletons.
Qed.

(** X7: when every tenant already has a listed team named team-<id> (a converged
    backend), the team fan-out makes exactly one edit call per tenant, on the
    id of a listed team of that name, and no create call. *)
Lemma upsertTenantTeams_edits_on_converged_backend (existingTeams : option (list Team.t))
    (s : Run) :
  (∀ teamId, teamId ∈ teamIds env →
             ∃ t, t ∈ default [] existingTeams ∧ Team.name t = Some ("team-" +:+ teamId)) →
  Forall2
    (fun teamId ev => ∃ t,
       t ∈ default [] existingTeams ∧ Team.name t = Some ("team-" +:+ teamId) ∧
       ev = editTeamCall common (Team.id t) (tenantTeam common env teamId))
    (teamIds env)
    (newCalls s (snd (upsertTenantTeams common env world existingTeams s))).
Proof.
  intros Hconverged. rewrite upsertTenantTeams_in_turn.
  destruct (promiseAll_trace_on
    (fun teamId => upsertTeam common world existingTeams (tenantTeam common env teamId))
    (fun teamId part => ∃ ev, part = [ev] ∧ ∃ t,
       t ∈ default [] existingTeams ∧ Team.name t = Some ("team-" +:+ teamId) ∧
       ev = editTeamCall common (Team.id t) (tenantTeam common env teamId)) (teamIds env))
    with (s := s) as (s' & parts & Hrun & Hcalls & Hparts).
  { intros teamId Hin s0.
    destruct (tenantTeam_spec teamId) as (Hname & _).
    destruct (upsertTeam_edits existingTeams (tenantTeam common env teamId) s0)
      as (t & s1 & Ht & Hsame & Hrun & Hcalls & _).
    - rewrite Hname. by apply Hconverged.
    - exists s1, [editTeamCall common (Team.id t) (tenantTeam common env teamId)].
      repeat split; try assumption. eexists. split; [reflexivity|].
      exists t. rewrite <- Hname. by repeat split. }
  rewrite Hrun. simpl. rewrite (newCalls_app _ _ _ Hcalls).
  by apply Forall2_concat_singletons.
Qed.

(** *** Running [addHook] again *)

Lemma hookMatchesb_spec (h : Hook.t) : hookMatchesb h = true ↔ hookMatches h.
Proof.
  unfold hookMatchesb, hookMatches. split.
  - destruct (Hook.config h) as [config|]; [|discriminate].
    destruct (config !! "url") as [url|] eqn:Hurl; [|discriminate].
    intros Hincl. by exists config, url.
  - intros (config & url & -> & -> & Hincl). exact Hincl.
Qed.

Lemma existsb_hookMatchesb (hooks : list Hook.t) :
  existsb hookMatchesb hooks = true ↔ Exists hookMatches hooks.
Proof.
  rewrite existsb_exists, Exists_exists. split.
  - intros (h & Hin & Hm). exists h. split; [by apply list_elem_of_In|].
    by apply hookMatchesb_spec.
  - intros (h & Hin & Hm). exists h. split; [by apply list_elem_of_In|].
    by apply hookMatchesb_spec.
Qed.

(** The whole of [addHook] when both lookups find the service and every
    listed hook can be scanned. *)
Lemma addHook_when_service_found (s : Run) (svc svc' : V1Service.t)
    (spec : V1Service.Spec) (hooks : list Hook.t) :
  k8sReadNamespacedService world (calls s) "event-listener" "team-admin" = inr svc →
  V1Service.spec svc = Some spec →
  k8sReadNamespacedService world (calls s ++ [listenerLookup]) "event-listener" "team-admin"
    = inr svc' →
  api world (calls s ++ [listenerLookup; listenerLookup])
    (repoListHooks (orgName common) "values") = inr hooks →
  Forall hookReadable hooks →
  fst (addHook common world s) = Fulfilled tt ∧
  calls (snd (addHook common world s)) =
    calls s ++ [listenerLookup; listenerLookup; listHooksCall common] ++
    (if existsb hookMatchesb hooks then []
     else [createHookCall common (V1Service.clusterIP spec)]).
Proof.
  intros Hfirst Hspec Hsecond Hlist Hreadable.
  destruct (addHook_resolve_run s) as (url & s1 & Hresolve & Hcalls1 & _ & _ & Hfound).
  specialize (Hfound svc spec Hfirst Hspec). subst url.
  destruct (addHook_reread_run s1) as (s2 & Hcalls2 & _ & Hreread).
  rewrite Hcalls1, Hsecond in Hreread.
  assert (calls s2 = calls s ++ [listenerLookup; listenerLookup]) as Hcalls2'
    by (rewrite Hcalls2, Hcalls1, <- app_assoc; reflexivity).
  assert (listedHooks common world s2 = hooks) as Hlisted
    by (unfold listedHooks; by rewrite Hcalls2', Hlist).
  unfold addHook. rewrite bind_run, Hresolve, bind_run, Hreread.
  unfold addHook_install. rewrite bind_run.
  destruct (hasTektonHook_run s2) as (o & s3 & Hrun3 & Hcalls3 & Hscan & _).
  rewrite Hlisted in Hscan. destruct (Hscan Hreadable) as (found & -> & Hiff).
  rewrite Hrun3. rewrite <- existsb_hookMatchesb in Hiff.
  destruct found; cbn [negb].
  - rewrite (proj1 Hiff eq_refl). split; [reflexivity|]. simpl.
    rewrite Hcalls3, Hcalls2', <- app_assoc. reflexivity.
  - destruct (existsb hookMatchesb hooks); [discriminate (proj2 Hiff eq_refl)|].
    edestruct doApiCall_void as (s4 & Hrun4 & Hcalls4 & _).
    rewrite Hrun4. split; [reflexivity|]. simpl.
    rewrite Hcalls4, Hcalls3, Hcalls2', <- !app_assoc. reflexivity.
Qed.

Lemma hookMatches_substring (h : Hook.t) :
  hookMatches h ↔
  ∃ config pre post,
    Hook.config h = Some config ∧
    config !! "url" = Some (pre +:+ "el-tekton-listener" +:+ post).
Proof.
  unfold hookMatches. split.
  - intros (config & url & Hconfig & Hurl & Hincl).
    apply includes_spec in Hincl as (pre & post & ->). by exists config, pre, post.
  - intros (config & pre & post & Hconfig & Hurl).
    exists config, (pre +:+ "el-tekton-listener" +:+ post).
    repeat split; try assumption. apply includes_spec. by exists pre, post.
Qed.

(** X14: on a hook, with no match found before, the callback of the scan
    sets the flag exactly when the hook has a config whose url has
    el-tekton-listener somewhere in it, whatever stands before and after. *)
Lemma hookCallback_detects_substring (h : Hook.t) (s : Run) :
  fst (hookCallback false h s) = Fulfilled true ↔
  ∃ config pre post,
    Hook.config h = Some config ∧
    config !! "url" = Some (pre +:+ "el-tekton-listener" +:+ post).
Proof.
  rewrite <- hookMatches_substring.
  destruct (decide (hookReadable h)) as [Hreadable|Hbad].
  - destruct (hookCallback_readable false h s Hreadable)
      as (found & s' & Hrun & _ & _ & Hfound).
    rewrite Hrun. simpl. split.
    + intros [= ->]. destruct (proj1 Hfound eq_refl) as [?|?]; [discriminate | assumption].
    + intros Hm. f_equal. apply Hfound. by right.
  - destruct (hookCallback_unreadable false h s Hbad) as [e Hrun].
    rewrite Hrun. simpl. split; [discriminate|].
    intros (config & url & Hconfig & Hurl & _). destruct Hbad.
    intros config' Hconfig'. rewrite Hconfig in Hconfig'. injection Hconfig' as <-.
    by rewrite Hurl.
Qed.

End Properties.

(** ** The task run against concrete collaborators *)

(** No team of that name listed: one create call. *)
Example upsertTeam_creates_absent_team :
  calls (snd (upsertTeam demoCommon (calmWorld [] []) (Some [])
                (tenantTeam demoCommon (demoEnv twoTenants true) "a") emptyRun)) =
  [ApiCall (teamAction demoCommon (tenantTeam demoCommon (demoEnv twoTenants true) "a"))
     (orgCreateTeam "otomi" (tenantTeam demoCommon (demoEnv twoTenants true) "a"))
     (Some 422)].
Proof. reflexivity. Qed.

(** The team is listed with id 7: one edit call, on id 7. *)
Example upsertTeam_edits_listed_team :
  calls (snd (upsertTeam demoCommon (calmWorld [teamA] []) (Some [teamA])
                (tenantTeam demoCommon (demoEnv twoTenants true) "a") emptyRun)) =
  [ApiCall (teamAction demoCommon (tenantTeam demoCommon (demoEnv twoTenants true) "a"))
     (orgEditTeam (Some 7) (tenantTeam demoCommon (demoEnv twoTenants true) "a"))
     (Some 422)].
Proof. reflexivity. Qed.

(** Tenant a lists gitea and gets Admin; tenant b does not and gets Write. *)
Example tenant_permissions_of_two_tenants :
  CreateTeamOption.permission (tenantTeam demoCommon (demoEnv twoTenants true) "a")
    = Some CreateTeamOption.Admin ∧
  CreateTeamOption.permission (tenantTeam demoCommon (demoEnv twoTenants true) "b")
    = Some CreateTeamOption.Write.
Proof. split; reflexivity. Qed.

(** C3, counterexample: a team name argument is supplied, the empty string,
    and [upsertRepo] makes the create call only: no binding call. *)
Lemma upsertRepo_empty_team_name_no_bind :
  is_Some (Some EmptyString) ∧
  calls (snd (upsertRepo demoCommon (calmWorld [] []) None None
                (repoOption demoCommon) (Some EmptyString) emptyRun)) =
    [ApiCall (repoCreateAction demoCommon (repoOption demoCommon))
       (createOrgRepo "otomi" (repoOption demoCommon)) (Some 422)] ∧
  existsb isRepoAddTeam
    (calls (snd (upsertRepo demoCommon (calmWorld [] []) None None
                   (repoOption demoCommon) (Some EmptyString) emptyRun))) = false.
Proof. split; [by eexists|]. split; reflexivity. Qed.

Lemma listenerHook_matches : hookMatches listenerHook.
Proof.
  exists {[ "url" := "http://10.0.0.7/el-tekton-listener" ]},
         "http://10.0.0.7/el-tekton-listener".
  split; [reflexivity|]. split; [apply lookup_singleton_eq | reflexivity].
Qed.

(** C4, counterexample: the backend lists a hook whose config has no url and
    a hook whose url contains el-tekton-listener.  A matching hook exists,
    and [hasTektonHook] does not return true: it throws. *)
Lemma hasTektonHook_rejects_despite_match :
  listedHooks demoCommon (calmWorld [] [bareHook; listenerHook]) emptyRun
    = [bareHook; listenerHook] ∧
  Exists hookMatches [bareHook; listenerHook] ∧
  fst (hasTektonHook demoCommon (calmWorld [] [bareHook; listenerHook]) emptyRun)
    = Rejected (TypeError "Cannot read properties of undefined (reading 'includes')").
Proof.
  split; [reflexivity|]. split; [|reflexivity].
  apply Exists_cons_tl, Exists_cons_hd, listenerHook_matches.
Qed.

(** C4, witness: one listed hook, readable and matching. *)
Lemma hasTektonHook_detects_witness :
  Forall hookReadable (listedHooks demoCommon (calmWorld [] [listenerHook]) emptyRun) ∧
  (fst (hasTektonHook demoCommon (calmWorld [] [listenerHook]) emptyRun) = Fulfilled true
     ↔ Exists hookMatches (listedHooks demoCommon (calmWorld [] [listenerHook]) emptyRun)).
Proof.
  assert (Forall hookReadable
            (listedHooks demoCommon (calmWorld [] [listenerHook]) emptyRun)) as Hall.
  { constructor; [|constructor]. intros config [= <-].
    exists "http://10.0.0.7/el-tekton-listener". apply lookup_singleton_eq. }
  split; [exact Hall|].
  exact (proj1 (proj1 (hasTektonHook_detects demoCommon (calmWorld [] [listenerHook]))
                  emptyRun Hall)).
Defined.

(** C8, witness: with the listener service found at 10.0.0.7 and no hook
    listed, the hook that [addHook] creates. *)
Lemma addHook_created_hook_witness :
  createHookCall demoCommon (Some "10.0.0.7")
    ∈ newCalls emptyRun (snd (addHook demoCommon (calmWorld [] []) emptyRun)) ∧
  CreateHookOption.url
    (CreateHookOption.config (tektonHookOption (Some "10.0.0.7"))) = Some "10.0.0.7".
Proof.
  assert (createHookCall demoCommon (Some "10.0.0.7")
            ∈ newCalls emptyRun (snd (addHook demoCommon (calmWorld [] []) emptyRun)))
    as Hin.
  { apply list_elem_of_In. vm_compute. tauto. }
  split; [exact Hin|].
  destruct (addHook_created_hook demoCommon (calmWorld [] []) emptyRun _ _ _ _ _ Hin)
    as (_ & _ & _ & _ & _ & _ & _ & _ & _ & Hurl).
  exact (Hurl clusterService {| V1Service.clusterIP := Some "10.0.0.7" |} eq_refl eq_refl).
Defined.

(** The fallback at work: the first lookup fails, the second one succeeds,
    and the hook is created at the default in-cluster address. *)
Example addHook_falls_back_when_second_lookup_succeeds :
  newCalls emptyRun (snd (addHook demoCommon flakyServiceWorld emptyRun)) =
  [listenerLookup; listenerLookup; listHooksCall demoCommon;
   createHookCall demoCommon (Some defaultTektonUrl)].
Proof. reflexivity. Qed.

(** C6, the run that breaks the claim: the listener service does not exist.
    The first lookup falls back to the default address, the second lookup
    (line 136, outside the [try]) rejects [addHook]: the hooks are never
    listed and no hook is created. *)
Theorem addHook_rejects_when_service_is_missing :
  addHook demoCommon noServiceWorld emptyRun =
  (Rejected (HttpError notFound),
   {| errors := [];
      calls := [listenerLookup; listenerLookup];
      console := [debug "Check for Tekton hook"; debug "Tekton service cannot be found"] |}).
Proof. reflexivity. Qed.

(** C5, the run that breaks the claim: Argo is disabled and the backend
    rejects the creation of the organisation with status 500.  The error is
    recorded, [main] returns at line 212 before the error log is inspected:
    nothing is reported and the process ends with status 0. *)
Theorem main_without_argo_hides_recorded_errors :
  errors (snd (main demoCommon (demoEnv [] false) orgFailWorld emptyRun)) =
    ["Creating org " +:+ dq +:+ "otomi" +:+ dq +:+ ": internal error"] ∧
  existsb isErrorsFound
    (console (snd (main demoCommon (demoEnv [] false) orgFailWorld emptyRun))) = false ∧
  exitStatus (fst (main demoCommon (demoEnv [] false) orgFailWorld emptyRun)) = Some 0.
Proof. repeat split; reflexivity. Qed.

(** The same backend with Argo enabled: the error log is inspected, the
    errors are printed and the process exits with status 1. *)
Example main_with_argo_reports_recorded_errors :
  exitStatus (fst (main demoCommon (demoEnv [] true) orgFailWorld emptyRun)) = Some 1 ∧
  existsb isErrorsFound
    (console (snd (main demoCommon (demoEnv [] true) orgFailWorld emptyRun))) = true.
Proof. split; reflexivity. Qed.

(** A clean run over two tenants with Argo enabled ends with status 0. *)
Example main_clean_run_succeeds :
  exitStatus (fst (main demoCommon (demoEnv twoTenants true) (calmWorld [] []) emptyRun))
    = Some 0 ∧
  errors (snd (main demoCommon (demoEnv twoTenants true) (calmWorld [] []) emptyRun)) = [] ∧
  last (console (snd (main demoCommon (demoEnv twoTenants true) (calmWorld [] []) emptyRun)))
    = Some (info "Success!").
Proof. repeat split; reflexivity. Qed.

(** ** Running [addHook] twice against a backend that stores hooks *)

Lemma created_hook_readable (tektonUrl : string) :
  hookReadable (hookOfOption (tektonHookOption (Some tektonUrl))).
Proof.
  intros config [= <-]. exists tektonUrl. apply lookup_insert_eq.
Qed.

Lemma created_hook_matches (tektonUrl : string) :
  hookMatchesb (hookOfOption (tektonHookOption (Some tektonUrl)))
  = includes tektonUrl "el-tekton-listener".
Proof.
  unfold hookMatchesb, hookOfOption, tektonHookOption. simpl.
  by rewrite lookup_insert_eq.
Qed.

(** X13: [addHook] is run twice against a backend that stores the hooks it is
    asked to create and lists them back, with the listener service found at
    [address] and no hook stored at the start.  The first run creates the
    hook with url [address].  The second run finds it only when [address]
    contains el-tekton-listener: otherwise it creates the same hook again. *)
Lemma addHook_twice_creates_again_unless_address_matches (common : Common)
    (address : string) (s : Run) :
  createdHooks (calls s) = [] →
  List.filter isCreateHook
    (newCalls s
       (snd (addHook common (rememberingWorld address)
               (snd (addHook common (rememberingWorld address) s))))) =
  if includes address "el-tekton-listener"
  then [createHookCall common (Some address)]
  else [createHookCall common (Some address); createHookCall common (Some address)].
Proof.
  intros Hnone.
  set (W := rememberingWorld address).
  set (sp := {| V1Service.clusterIP := Some address |}).
  set (svc := {| V1Service.spec := Some sp |}).
  destruct (addHook_when_service_found common W s svc svc sp []) as [_ Hcalls1];
    try reflexivity.
  { simpl. unfold createdHooks in *. by rewrite omap_app, Hnone. }
  { constructor. }
  simpl in Hcalls1.
  set (s1 := snd (addHook common W s)) in *.
  destruct (addHook_when_service_found common W s1 svc svc sp
              [hookOfOption (tektonHookOption (Some address))]) as [_ Hcalls2];
    try reflexivity.
  { simpl. rewrite Hcalls1. unfold createdHooks in *.
    by rewrite !omap_app, Hnone. }
  { constructor; [apply created_hook_readable | constructor]. }
  simpl existsb in Hcalls2. rewrite created_hook_matches, orb_false_r in Hcalls2.
  rewrite Hcalls1, <- app_assoc in Hcalls2.
  rewrite (newCalls_app _ _ _ Hcalls2).
  by destruct (includes address "el-tekton-listener").
Qed.

(** ** Instances of the properties that have a precondition *)

Lemma main_with_argo_inspects_witness :
  hasArgo (demoEnv [] true) = true ∧
  inspected (fst (main demoCommon (demoEnv [] true) orgFailWorld emptyRun))
            (snd (main demoCommon (demoEnv [] true) orgFailWorld emptyRun)).
Proof.
  split; [reflexivity|].
  exact (main_with_argo_inspects demoCommon (demoEnv [] true) orgFailWorld emptyRun eq_refl).
Defined.

Lemma main_without_argo_silent_witness :
  hasArgo (demoEnv [] false) = false ∧
  silent (main demoCommon (demoEnv [] false) orgFailWorld).
Proof.
  split; [reflexivity|].
  exact (main_without_argo_silent demoCommon (demoEnv [] false) orgFailWorld eq_refl).
Defined.

Lemma addHook_aborts_when_lookup_keeps_failing_witness :
  fst (addHook demoCommon noServiceWorld emptyRun) = Rejected (HttpError notFound) ∧
  newCalls emptyRun (snd (addHook demoCommon noServiceWorld emptyRun))
    = [listenerLookup; listenerLookup].
Proof.
  exact (addHook_aborts_when_lookup_keeps_failing demoCommon noServiceWorld emptyRun
           notFound notFound eq_refl eq_refl).
Defined.

Lemma addHook_falls_back_when_reread_succeeds_witness :
  newCalls emptyRun (snd (addHook demoCommon flakyServiceWorld emptyRun)) =
    [listenerLookup; listenerLookup; listHooksCall demoCommon;
     createHookCall demoCommon (Some defaultTektonUrl)] ∨
  newCalls emptyRun (snd (addHook demoCommon flakyServiceWorld emptyRun)) =
    [listenerLookup; listenerLookup; listHooksCall demoCommon].
Proof.
  exact (addHook_falls_back_when_reread_succeeds demoCommon flakyServiceWorld emptyRun
           notFound clusterService eq_refl eq_refl).
Defined.

Lemma main_aborts_when_unavailable_witness :
  fst (main demoCommon (demoEnv twoTenants true) downWorld emptyRun)
    = Rejected (HttpError unavailable) ∧
  newCalls emptyRun (snd (main demoCommon (demoEnv twoTenants true) downWorld emptyRun))
    = [WaitAvailable "http://gitea.local/"] ∧
  errors (snd (main demoCommon (demoEnv twoTenants true) downWorld emptyRun)) = [] ∧
  console (snd (main demoCommon (demoEnv twoTenants true) downWorld emptyRun)) = [].
Proof.
  exact (main_aborts_when_unavailable demoCommon (demoEnv twoTenants true) downWorld
           emptyRun unavailable eq_refl).
Defined.

Lemma main_call_order_witness :
  ∃ teamCalls viewerCall repoCall tail,
    newCalls emptyRun
      (snd (main demoCommon (demoEnv twoTenants true) (calmWorld [] []) emptyRun)) =
      [WaitAvailable "http://gitea.local/"; orgCreateCall demoCommon;
       listTeamsCall demoCommon] ++
      teamCalls ++
      [viewerCall; listReposCall demoCommon; repoCall; bindViewerCall demoCommon;
       listenerLookup; listenerLookup] ++
      tail ∧
    Forall2
      (fun teamId ev => ∃ op,
         ev = ApiCall
                (teamAction demoCommon
                   (tenantTeam demoCommon (demoEnv twoTenants true) teamId))
                op (Some 422) ∧
         teamOptionOf op = Some (tenantTeam demoCommon (demoEnv twoTenants true) teamId))
      ["a"; "b"] teamCalls ∧
    (∃ op, viewerCall = ApiCall (teamAction demoCommon (readOnlyTeam demoCommon)) op
                          (Some 422) ∧
           teamOptionOf op = Some (readOnlyTeam demoCommon)) ∧
    (repoCall = createRepoCall demoCommon (repoOption demoCommon) ∨
     repoCall = editRepoCall demoCommon (repoOption demoCommon)).
Proof.
  exact (main_call_order demoCommon (demoEnv twoTenants true) (calmWorld [] []) emptyRun
           eq_refl).
Defined.

Lemma addHook_creates_when_listing_fails_witness :
  fst (hasTektonHook demoCommon hookListFailWorld emptyRun) = Fulfilled false ∧
  fst (addHook_install demoCommon hookListFailWorld (Some "10.0.0.7") emptyRun)
    = Fulfilled tt ∧
  newCalls emptyRun
    (snd (addHook_install demoCommon hookListFailWorld (Some "10.0.0.7") emptyRun)) =
    [listHooksCall demoCommon; createHookCall demoCommon (Some "10.0.0.7")].
Proof.
  exact (addHook_creates_when_listing_fails demoCommon hookListFailWorld (Some "10.0.0.7")
           emptyRun {| statusCode := 500; detail := "internal error" |} eq_refl).
Defined.

Lemma upsertTenantTeams_creates_on_fresh_backend_witness :
  newCalls emptyRun
    (snd (upsertTenantTeams demoCommon (demoEnv twoTenants true) (calmWorld [] [])
            (Some []) emptyRun)) =
  [createTeamCall demoCommon (tenantTeam demoCommon (demoEnv twoTenants true) "a");
   createTeamCall demoCommon (tenantTeam demoCommon (demoEnv twoTenants true) "b")].
Proof.
  apply (upsertTenantTeams_creates_on_fresh_backend demoCommon (demoEnv twoTenants true)
           (calmWorld [] []) (Some []) emptyRun).
  intros teamId t _ Ht. by apply elem_of_nil in Ht.
Defined.

Lemma upsertTenantTeams_edits_on_converged_backend_witness :
  Forall2
    (fun teamId ev => ∃ t,
       t ∈ [teamA; teamB] ∧ Team.name t = Some ("team-" +:+ teamId) ∧
       ev = editTeamCall demoCommon (Team.id t)
              (tenantTeam demoCommon (demoEnv twoTenants true) teamId))
    ["a"; "b"]
    (newCalls emptyRun
       (snd (upsertTenantTeams demoCommon (demoEnv twoTenants true)
               (calmWorld [teamA; teamB] []) (Some [teamA; teamB]) emptyRun))).
Proof.
  apply (upsertTenantTeams_edits_on_converged_backend demoCommon (demoEnv twoTenants true)
           (calmWorld [teamA; teamB] []) (Some [teamA; teamB]) emptyRun).
  intros teamId Hin. change (teamId ∈ ["a"; "b"]) in Hin.
  apply elem_of_cons in Hin as [->|Hin].
  - exists teamA. split; [apply list_elem_of_here | reflexivity].
  - apply elem_of_cons in Hin as [->|Hin]; [|by apply elem_of_nil in Hin].
    exists teamB. split; [apply list_elem_of_further, list_elem_of_here | reflexivity].
Defined.

Lemma addHook_twice_creates_again_witness :
  List.filter isCreateHook
    (newCalls emptyRun
       (snd (addHook demoCommon (rememberingWorld "10.0.0.7")
               (snd (addHook demoCommon (rememberingWorld "10.0.0.7") emptyRun))))) =
  [createHookCall demoCommon (Some "10.0.0.7"); createHookCall demoCommon (Some "10.0.0.7")].
Proof.
  exact (addHook_twice_creates_again_unless_address_matches demoCommon "10.0.0.7" emptyRun
           eq_refl).
Defined.

(** C2, witness: two tenants, a with gitea among its self-service apps and b
    without self-service settings. *)
Lemma tenant_team_option_witness :
  NoDup (map fst (default [] (teamConfig (OTOMI_VALUES (demoEnv twoTenants true))))) ∧
  fst (upsertTenantTeams demoCommon (demoEnv twoTenants true) (calmWorld [] []) (Some [])
         emptyRun) = Fulfilled tt ∧
  ∃ parts,
    newCalls emptyRun
      (snd (upsertTenantTeams demoCommon (demoEnv twoTenants true) (calmWorld [] [])
              (Some []) emptyRun)) = concat parts ∧
    Forall2
      (fun entry part => ∃ op body,
         part = [ApiCall (teamAction demoCommon body) op (Some 422)] ∧
         teamOptionOf op = Some body ∧
         CreateTeamOption.name body = Some ("team-" +:+ fst entry) ∧
         (body = withName (adminTeam demoCommon) ("team-" +:+ fst entry)
            ↔ ∃ ss l, selfService (snd entry) = Some ss ∧ apps ss = Some l ∧ "gitea" ∈ l) ∧
         (body = withName (editorTeam demoCommon) ("team-" +:+ fst entry)
            ↔ ¬ ∃ ss l, selfService (snd entry) = Some ss ∧ apps ss = Some l ∧ "gitea" ∈ l) ∧
         (CreateTeamOption.permission body = Some CreateTeamOption.Admin
            ↔ ∃ ss l, selfService (snd entry) = Some ss ∧ apps ss = Some l ∧ "gitea" ∈ l) ∧
         (CreateTeamOption.permission body = Some CreateTeamOption.Write
            ↔ ¬ ∃ ss l, selfService (snd entry) = Some ss ∧ apps ss = Some l ∧ "gitea" ∈ l))
      twoTenants parts.
Proof.
  assert (NoDup (map fst (default [] (teamConfig (OTOMI_VALUES (demoEnv twoTenants true))))))
    as Hkeys.
  { change (NoDup ["a"; "b"]). apply NoDup_cons. split.
    - intros Hin. apply elem_of_cons in Hin as [Heq|Hin]; [discriminate|].
      by apply elem_of_nil in Hin.
    - apply NoDup_cons. split; [by intros ?%elem_of_nil | apply NoDup_nil_2]. }
  split; [exact Hkeys|].
  exact (tenant_team_option demoCommon (demoEnv twoTenants true) (calmWorld [] []) (Some [])
           emptyRun Hkeys).
Defined.

(** Two tenants on a fresh backend: both repositories are created before
    either is bound to its team. *)
Example upsertArgoRepos_of_two_tenants :
  newCalls emptyRun
    (snd (upsertArgoRepos demoCommon (demoEnv twoTenants true) (calmWorld [] [])
            (Some []) (Some []) emptyRun)) =
  [createRepoCall demoCommon (argoRepoOption demoCommon "a");
   createRepoCall demoCommon (argoRepoOption demoCommon "b");
   bindTeamCall demoCommon (argoRepoOption demoCommon "a") "team-a";
   bindTeamCall demoCommon (argoRepoOption demoCommon "b") "team-b"].
Proof. reflexivity. Qed.
